(** * tools/process_smc.py: the multi-view capture processing script

    The script [main] of [tools/process_smc.py] is embedded as a function in a
    state-and-exception monad over a small world: a file system keyed by path
    strings, the logger's records, the wall clock and a trace of the calls made
    to the external collaborators (capture reader, estimator, visualisers).
    Python strings are [string], f-string number formatting and
    [str.rsplit] are written out, [os.path.join] follows [posixpath]. *)

From Stdlib Require Import Ascii QArith Field.
From stdpp Require Import gmap strings list fin_maps sorting.

Local Open Scope string_scope.
Local Open Scope list_scope.
Local Open Scope nat_scope.

(** ** Python string helpers *)

(** [c in s] for a one-character [c]. *)
Fixpoint has_char (c : ascii) (s : string) : bool :=
  match s with
  | EmptyString => false
  | String a s' => Ascii.eqb a c || has_char c s'
  end.

(** [s.rsplit(c, 1)]: [None] when [c] does not occur (Python then returns
    the one-element list [[s]]), otherwise the two parts around the last
    occurrence of [c]. *)
Fixpoint rsplit1 (c : ascii) (s : string) : option (string * string) :=
  match s with
  | EmptyString => None
  | String a s' =>
      match rsplit1 c s' with
      | Some (h, t) => Some (String a h, t)
      | None => if Ascii.eqb a c then Some (EmptyString, s') else None
      end
  end.

(** [s.rsplit(c, 1)[-1]] *)
Definition rsplit_last (c : ascii) (s : string) : string :=
  match rsplit1 c s with Some (_, t) => t | None => s end.

(** [s.rsplit(c, 1)[0]] *)
Definition rsplit_first (c : ascii) (s : string) : string :=
  match rsplit1 c s with Some (h, _) => h | None => s end.

(** [s.startswith(c)] and [s.endswith(c)] for a one-character [c]. *)
Definition startswith_char (c : ascii) (s : string) : bool :=
  match s with String a _ => Ascii.eqb a c | EmptyString => false end.

Fixpoint endswith_char (c : ascii) (s : string) : bool :=
  match s with
  | EmptyString => false
  | String a EmptyString => Ascii.eqb a c
  | String _ s' => endswith_char c s'
  end.

(** [s.endswith(suffix)]: some tail of [s] is [suffix]. *)
Fixpoint endswith (suffix s : string) : bool :=
  String.eqb s suffix ||
  match s with
  | EmptyString => false
  | String _ s' => endswith suffix s'
  end.

(** [s.split(c)] for a one-character [c]. *)
Fixpoint split_char (c : ascii) (s : string) : list string :=
  match s with
  | EmptyString => [EmptyString]
  | String a s' =>
      if Ascii.eqb a c then EmptyString :: split_char c s'
      else match split_char c s' with
           | h :: t => String a h :: t
           | [] => [String a EmptyString]
           end
  end.

(** [glob.has_magic]: the string holds one of glob's wildcard characters
    [*], [?] and [[]. *)
Definition has_magic (s : string) : bool :=
  has_char "*" s || has_char "?" s || has_char "[" s.

(** *** Decimal formatting: [f'{n:0wd}'] *)

Definition digit_char (d : nat) : ascii := ascii_of_nat (48 + d mod 10).

(** The [w] least significant decimal digits of [n], most significant
    first, in front of [acc]. *)
Fixpoint digits (w n : nat) (acc : string) : string :=
  match w with
  | 0 => acc
  | S w' => digits w' (n / 10) (String (digit_char n) acc)
  end.

Fixpoint ndigits_aux (fuel n : nat) : nat :=
  match fuel with
  | 0 => 1
  | S f => if n <? 10 then 1 else S (ndigits_aux f (n / 10))
  end.

(** Number of decimal digits of [n] (at least one). *)
Definition ndigits (n : nat) : nat := ndigits_aux n n.

(** [f'{n:0wd}']: decimal, zero-padded on the left to at least [w]
    characters, never truncated. *)
Definition fmt_d (w n : nat) : string := digits (Nat.max w (ndigits n)) n "".

(** [int(s)] on a string of decimal digits, continuing from [acc]. *)
Fixpoint dec_value (s : string) (acc : nat) : nat :=
  match s with
  | EmptyString => acc
  | String c s' => dec_value s' (acc * 10 + (nat_of_ascii c - 48))
  end.

(** [sorted(l)] on a list of strings: Python compares [str] values
    lexicographically by code point, which is [String.le]. *)
Definition sorted (l : list string) : list string := merge_sort String.le l.

(** ** POSIX paths *)

(** [os.path.join(a, b)] *)
Definition path_join (a b : string) : string :=
  if startswith_char "/" b then b
  else if String.eqb a "" || endswith_char "/" a then a +:+ b
  else a +:+ "/" +:+ b.

(** The directory a path lives in: the part before its last separator.
    The empty string stands for the directory that relative one-component
    paths (and the root's children) hang from; it always exists.  For a
    path without trailing separator this is [os.path.dirname] and, with
    the empty string for [.], [Path(p).parent]; with a trailing separator
    the two differ ([Path("out/").parent] is [.]), which is why properties
    that rest on a parent check assume [normal_dir] or [plain_path]. *)
Definition dirname (p : string) : string :=
  match rsplit1 "/" p with Some (h, _) => h | None => "" end.

Definition basename (p : string) : string := rsplit_last "/" p.

(** A directory name the file system keys can be built from: no trailing
    separator. *)
Definition normal_dir (d : string) : Prop := endswith_char "/" d = false.

(** A path component: not empty, no separator. *)
Definition component (b : string) : Prop := b <> "" /\ has_char "/" b = false.

Definition plain_component (c : string) : bool :=
  negb (String.eqb c "") && negb (String.eqb c ".") && negb (String.eqb c "..").

(** A path written the way the file system is keyed: not empty, its
    components separated by single separators, none of them [.] or [..],
    no trailing separator; a leading separator (an absolute path) is
    allowed.  On such paths looking a path up as it is written and
    resolving it agree. *)
Definition plain_path (p : string) : bool :=
  match split_char "/" p with
  | first :: rest =>
      (plain_component first
       || String.eqb first "" && negb (bool_decide (rest = [])))
      && forallb plain_component rest
  | [] => false
  end.



(** ** Camera parameters

    A [CameraParameter] holds the intrinsic matrix, the extrinsic rotation and
    translation and the [world2cam] flag.  Matrix entries are idealised as
    rationals. *)

Definition vec3 : Type := Q * Q * Q.
Definition mat3 : Type := vec3 * vec3 * vec3.

Record CameraParameter := {
  intrinsic : mat3;
  extrinsic_r : mat3;
  extrinsic_t : vec3;
  world2cam : bool
}.

Local Open Scope Q_scope.

Definition det3 (m : mat3) : Q :=
  let '((a, b, c), (d, e, f), (g, h, i)) := m in
  a * (e * i - f * h) - b * (d * i - f * g) + c * (d * h - e * g).

(** [np.linalg.inv] on a 3x3 matrix: adjugate over determinant. *)
Definition inv3 (m : mat3) : mat3 :=
  let '((a, b, c), (d, e, f), (g, h, i)) := m in
  let k := / det3 m in
  (((e * i - f * h) * k, (c * h - b * i) * k, (b * f - c * e) * k),
   ((f * g - d * i) * k, (a * i - c * g) * k, (c * d - a * f) * k),
   ((d * h - e * g) * k, (b * g - a * h) * k, (a * e - b * d) * k)).

Definition dot3 (u v : vec3) : Q :=
  let '(a, b, c) := u in let '(x, y, z) := v in a * x + b * y + c * z.

(** [np.dot(m, v)] *)
Definition mat_vec (m : mat3) (v : vec3) : vec3 :=
  let '(r1, r2, r3) := m in (dot3 r1 v, dot3 r2 v, dot3 r3 v).

Definition vec_add (u v : vec3) : vec3 :=
  let '(a, b, c) := u in let '(x, y, z) := v in (a + x, b + y, c + z).

Definition vec_neg (u : vec3) : vec3 :=
  let '(a, b, c) := u in (- a, - b, - c).

Definition vec_eq (u v : vec3) : Prop :=
  let '(a, b, c) := u in let '(x, y, z) := v in a == x /\ b == y /\ c == z.

(** The rigid map an extrinsic pair stands for: [x |-> R x + T]. *)
Definition apply_extrinsic (c : CameraParameter) (x : vec3) : vec3 :=
  vec_add (mat_vec (extrinsic_r c) x) (extrinsic_t c).

(** [CameraParameter.inverse_extrinsic] of the camera library: the rotation
    becomes its matrix inverse, the translation [-(R^-1 T)], and the flag
    flips.  [None] stands for numpy's [LinAlgError] on a singular matrix. *)
Definition inverse_extrinsic (c : CameraParameter) : option CameraParameter :=
  if Qeq_bool (det3 (extrinsic_r c)) 0 then None
  else
    let r_mat := inv3 (extrinsic_r c) in
    let t_vec := vec_neg (mat_vec r_mat (extrinsic_t c)) in
    Some {| intrinsic := intrinsic c;
            extrinsic_r := r_mat;
            extrinsic_t := t_vec;
            world2cam := negb (world2cam c) |}.

Local Close Scope Q_scope.

(** ** Exceptions and command-line arguments *)

Inductive exn :=
| FileNotFoundError
| FileExistsError
| IsADirectoryError
| NotADirectoryError
| AttributeError
| IndexError
| KeyError
| LinAlgError
| ConfigurationError
| ExternalError (who : string).

Inductive result (A : Type) :=
| Ok (a : A)
| Raise (e : exn).
Arguments Ok {A} a.
Arguments Raise {A} e.

Definition is_ok {A} (r : result A) : bool :=
  match r with Ok _ => true | Raise _ => false end.

(** [--frame_file], [choices=['none', 'temp', 'keep']]. *)
Inductive frame_file_choice := FrameNone | FrameTemp | FrameKeep.

Global Instance frame_file_choice_eq_dec : EqDecision frame_file_choice.
Proof. solve_decision. Defined.

Record Args := {
  smc_path : string;
  output_dir : string;
  estimator_config : string;
  visualize : bool;
  frame_file : frame_file_choice;
  disable_log_file : bool
}.

(** [xrprimer.utils.path_utils.Existence] *)
Inductive Existence :=
| FileExist
| DirectoryExistEmpty
| DirectoryExistNotEmpty
| MissingParent
| DirectoryNotExist
| FileNotExist.

Global Instance Existence_eq_dec : EqDecision Existence.
Proof. solve_decision. Defined.

Inductive path_type := TFile | TDir.

(** [datetime.datetime.now()] *)
Record datetime := {
  year : nat; month : nat; day : nat; hour : nat; minute : nat; second : nat
}.

(** [strftime('%Y.%m.%d_%H:%M:%S')] *)
Definition strftime (t : datetime) : string :=
  fmt_d 4 (year t) +:+ "." +:+ fmt_d 2 (month t) +:+ "." +:+ fmt_d 2 (day t)
  +:+ "_" +:+ fmt_d 2 (hour t) +:+ ":" +:+ fmt_d 2 (minute t) +:+ ":"
  +:+ fmt_d 2 (second t).

(** [range(start, stop, step)] for a positive step. *)
Fixpoint range_from (fuel start stop step : nat) : list nat :=
  match fuel with
  | 0 => []
  | S f => if start <? stop then start :: range_from f (start + step) stop step
           else []
  end.

Definition py_range (start stop step : nat) : list nat :=
  range_from stop start stop step.

(** [enumerate(l)] *)
Definition enumerate {A} (l : list A) : list (nat * A) := zip (seq 0 (length l)) l.

Inductive log_level := INFO | WARNING.

(** [s.startswith(pre)] *)
Fixpoint startswith (pre s : string) : bool :=
  match pre, s with
  | EmptyString, _ => true
  | String _ _, EmptyString => false
  | String a pre', String b s' => Ascii.eqb a b && startswith pre' s'
  end.

(** ** The world of one run *)

Section Pipeline.

(** Data owned by the external collaborators: decoded frames, the
    keypoint containers, body-model parameters and projected keypoints. *)
Context {Frame Keypoints2D Keypoints3D BodyParams ViewKeypoints : Type}.

(** [smpl_data]: an [SMPLData] or its [SMPLXData] refinement; the script
    tells them apart with [isinstance]. *)
Inductive SMPLValue :=
| SMPLData (p : BodyParams)
| SMPLXData (p : BodyParams).

(** What [SMCReader] exposes of a capture file. *)
Record Capture := {
  kinect_color : list (list Frame);
  calibration : list CameraParameter
}.

Definition num_kinects (c : Capture) : nat := length (kinect_color c).

Inductive content :=
| Image (f : Frame)
| Kp2dNpz (k : Keypoints2D)
| Kp3dNpz (k : Keypoints3D)
| SmplNpz (d : SMPLValue)
| SmcFile (c : Capture)
| VideoFile
| TextFile.

Inductive node :=
| Dir
| File (c : content).

Inductive event :=
| EvSMCReader (path : string)
| EvBuildEstimator (config : string)
| EvLoadCameras
| EvGetKinectColor (kinect_id : nat)
| EvArrayToImages (kinect_id : nat) (folder : string)
| EvEstimateKeypoints2d (kinect_id : nat)
| EvEstimateKeypoints3d (cam_param : list CameraParameter)
| EvEstimateSmpl
| EvRun (cam_param : list CameraParameter) (img_paths : list (list string))
| EvDump (path : string) (c : content)
| EvRmtree (path : string)
| EvProject (n_view : nat)
| EvVisualizeKp3d (path : string)
| EvVisualizeKp2d (view_idx : nat) (path : string)
| EvVisualizeSmplCalibration (cam : CameraParameter) (path : string).

Record world := {
  w_fs : gmap string node;
  w_log : list (log_level * string);
  w_clock : datetime;
  w_trace : list event
}.

(** *** State and exceptions *)

Definition M (A : Type) : Type := world -> result A * world.

Definition ret {A} (a : A) : M A := fun w => (Ok a, w).

Definition bind {A B} (m : M A) (k : A -> M B) : M B :=
  fun w => match m w with
           | (Ok a, w') => k a w'
           | (Raise e, w') => (Raise e, w')
           end.

Definition raise {A} (e : exn) : M A := fun w => (Raise e, w).

Definition lift {A} (r : result A) : M A := fun w => (r, w).

Definition get_fs : M (gmap string node) := fun w => (Ok (w_fs w), w).

Definition put_fs (fs : gmap string node) : M unit :=
  fun w => (Ok tt, {| w_fs := fs; w_log := w_log w;
                      w_clock := w_clock w; w_trace := w_trace w |}).

Definition emit (e : event) : M unit :=
  fun w => (Ok tt, {| w_fs := w_fs w; w_log := w_log w;
                      w_clock := w_clock w; w_trace := w_trace w ++ [e] |}).

Definition logger_warning (msg : string) : M unit :=
  fun w => (Ok tt, {| w_fs := w_fs w; w_log := w_log w ++ [(WARNING, msg)];
                      w_clock := w_clock w; w_trace := w_trace w |}).

Definition now : M datetime := fun w => (Ok (w_clock w), w).

Notation "'let*' x := m 'in' k" := (bind m (fun x => k))
  (at level 10, x pattern, m at level 100, k at level 200, only parsing).

(** [for x in l: body x], threading the loop's local variables [acc]. *)
Fixpoint for_each {A S} (l : list A) (body : S -> A -> M S) (acc : S) : M S :=
  match l with
  | [] => ret acc
  | x :: l' => let* acc' := body acc x in for_each l' body acc'
  end.

(** *** File system primitives *)

(** [os.path.isdir].  Paths are looked up as they are written: the file
    system is keyed by the strings the script builds, and the empty string
    stands for the current directory.  A path that reaches a directory
    through [.], [..], a doubled or a trailing separator is not resolved
    to its key (see [plain_path]). *)
Definition isdir (fs : gmap string node) (p : string) : bool :=
  String.eqb p "" || match fs !! p with Some Dir => true | _ => false end.

Definition isfile (fs : gmap string node) (p : string) : bool :=
  match fs !! p with Some (File _) => true | _ => false end.

(** [len(os.listdir(p)) != 0] *)
Definition dir_nonempty (fs : gmap string node) (p : string) : bool :=
  bool_decide (map_Exists (fun q _ => dirname q = p) fs).

(** [xrprimer.utils.path_utils.check_path_existence] *)
Definition check_path_existence (p : string) (t : path_type) : M Existence :=
  let* fs := get_fs in
  ret match t with
      | TDir =>
          if isdir fs p then
            if dir_nonempty fs p then DirectoryExistNotEmpty
            else DirectoryExistEmpty
          else if isdir fs (dirname p) then DirectoryNotExist
          else MissingParent
      | TFile =>
          if isfile fs p then FileExist
          else if isdir fs (dirname p) then FileNotExist
          else MissingParent
      end.

(** [os.mkdir] *)
Definition os_mkdir (p : string) : M unit :=
  let* fs := get_fs in
  match fs !! p with
  | Some _ => raise FileExistsError
  | None =>
      if isdir fs (dirname p) then put_fs (<[p := Dir]> fs)
      else raise FileNotFoundError
  end.

(** The proper ancestors of a path, outermost first. *)
Fixpoint ancestors_aux (seen rest : string) : list string :=
  match rest with
  | EmptyString => []
  | String a rest' =>
      (if Ascii.eqb a "/" && negb (String.eqb seen "") then [seen] else [])
      ++ ancestors_aux (seen +:+ String a EmptyString) rest'
  end.

Definition ancestors (p : string) : list string := ancestors_aux "" p.

(** [os.makedirs(p, exist_ok=True)] *)
Definition os_makedirs (p : string) : M unit :=
  for_each (ancestors p ++ [p])
    (fun _ d =>
       let* fs := get_fs in
       match fs !! d with
       | Some Dir => ret tt
       | Some (File _) => raise FileExistsError
       | None => put_fs (<[d := Dir]> fs)
       end) tt.

(** [xrprimer.utils.path_utils.prepare_output_path] with
    [path_type='dir', overwrite=True]: an existing directory is left as
    it is, a missing one is made, a missing parent is made in its place. *)
Definition prepare_output_path_dir (p : string) : M unit :=
  let* exist_result := check_path_existence p TDir in
  match exist_result with
  | MissingParent => os_makedirs (dirname p)
  | DirectoryNotExist => os_mkdir p
  | _ => ret tt
  end.

(** Creating or replacing a regular file. *)
Definition write_file (p : string) (c : content) : M unit :=
  let* fs := get_fs in
  match fs !! p with
  | Some Dir => raise IsADirectoryError
  | _ =>
      if isdir fs (dirname p) then put_fs (<[p := File c]> fs)
      else raise FileNotFoundError
  end.

(** Opening a file for appending: made when missing, kept otherwise. *)
Definition open_append (p : string) : M unit :=
  let* fs := get_fs in
  match fs !! p with
  | Some Dir => raise IsADirectoryError
  | Some (File _) => ret tt
  | None =>
      if isdir fs (dirname p) then put_fs (<[p := File TextFile]> fs)
      else raise FileNotFoundError
  end.

(** [p] is [d] or lies below it. *)
Definition within (d p : string) : bool :=
  String.eqb p d || startswith (d +:+ "/") p.

(** [shutil.rmtree] *)
Definition shutil_rmtree (d : string) : M unit :=
  let* fs := get_fs in
  match fs !! d with
  | Some Dir =>
      let* _ := emit (EvRmtree d) in
      put_fs (filter (fun kv => within d (fst kv) = false) fs)
  | Some (File _) => raise NotADirectoryError
  | None => raise FileNotFoundError
  end.

(** [glob.glob(pattern)] for a pattern [dir/*suffix] whose directory part
    holds none of glob's wildcard characters (see [has_magic]): glob then
    lists [dir] alone and yields [os.path.join(dir, name)] for the entries
    whose name ends with [suffix] and does not start with a dot, in the
    order the file system lists them.  A wildcard in the directory part
    would be expanded against the file system as well; that expansion is
    not modelled, and the properties that rest on what [glob] returns
    assume such characters away. *)
Definition glob (pattern : string) : M (list string) :=
  let* fs := get_fs in
  ret match basename pattern with
      | String "*" suffix =>
          filter (fun q => dirname q = dirname pattern
                           /\ endswith suffix (basename q) = true
                           /\ startswith_char "." (basename q) = false)
                 (map fst (map_to_list fs))
      | _ => if decide (is_Some (fs !! pattern)) then [pattern] else []
      end.

(** [xrprimer.utils.log_utils.setup_logger]: with a [logger_path] a
    file handler is attached, which opens the log file at once. *)
Definition setup_logger (logger_path : option string) : M unit :=
  match logger_path with
  | Some p => open_append p
  | None => ret tt
  end.

(** [xrprimer.utils.ffmpeg_utils.array_to_images]: prepares the folder
    and writes frame [i] as [%06d.png], counting from one. *)
Definition array_to_images (image_array : list Frame) (output_folder : string)
  : M unit :=
  let* _ := prepare_output_path_dir output_folder in
  for_each (enumerate image_array)
    (fun _ '(i, f) =>
       write_file (path_join output_folder (fmt_d 6 (S i) +:+ ".png"))
                  (Image f)) tt.

(** ** External collaborators *)

(** The projector handed out by the estimator's triangulator. *)
Record Projector := {
  camera_parameters : list CameraParameter;
  project_view : CameraParameter -> Keypoints3D -> ViewKeypoints
}.

(** Modelled from the spec: [projector.project] is not under src/; section
    4.5 has it produce, per camera of its ordered camera list, the 2D
    re-projection of the fused keypoints.  The script reshapes the
    result to [n_view] leading entries. *)
Definition project (p : Projector) (kps3d : Keypoints3D) : list ViewKeypoints :=
  map (fun c => project_view p c kps3d) (camera_parameters p).

(** The estimator object returned by [build_estimator]: the methods the
    script calls.  [run] reads the frame files it is given paths of; the
    projector depends on the cameras the estimator was driven with. *)
Record Estimator := {
  estimate_keypoints2d :
    list (list Frame) -> result (list (option Keypoints2D));
  estimate_keypoints3d :
    list CameraParameter -> list (option Keypoints2D) ->
    result (option Keypoints3D);
  estimate_smpl : option Keypoints3D -> result (option SMPLValue);
  run :
    list CameraParameter -> gmap string node -> list (list string) ->
    result (list (option Keypoints2D) * option Keypoints3D * option SMPLValue);
  get_projector : list CameraParameter -> Projector
}.

(** [xrmocap.transform.image.color.rgb2bgr], [build_estimator] on the
    configuration file and the camera loader
    [get_all_color_kinect_parameter_from_smc(align_floor=True)]. *)
Variable rgb2bgr : list Frame -> list Frame.
Variable build_estimator : string -> result Estimator.
Variable get_all_color_kinect_parameter_from_smc :
  Capture -> result (list CameraParameter).

(** [SMCReader(file_path=...)] *)
Definition SMCReader (file_path : string) : M Capture :=
  let* fs := get_fs in
  match fs !! file_path with
  | Some (File (SmcFile c)) =>
      let* _ := emit (EvSMCReader file_path) in ret c
  | _ => raise (ExternalError "SMCReader")
  end.

(** [smc_reader.get_kinect_color(kinect_id=...)] *)
Definition get_kinect_color (smc_reader : Capture) (kinect_id : nat)
  : M (list Frame) :=
  match kinect_color smc_reader !! kinect_id with
  | Some a => let* _ := emit (EvGetKinectColor kinect_id) in ret a
  | None => raise KeyError
  end.

(** [obj.dump(path)]; on [None] the attribute lookup fails. *)
Definition dump (c : option content) (path : string) : M unit :=
  match c with
  | Some c => let* _ := write_file path c in emit (EvDump path c)
  | None => raise AttributeError
  end.

(** The visualisers of mmhuman3d render a video to [output_path]. *)
Definition render_video (e : event) (output_path : string) : M unit :=
  let* _ := write_file output_path VideoFile in emit e.

(** ** The script *)

Definition smc_name_of (a : Args) : string :=
  let file_name := rsplit_last "/" (smc_path a) in
  rsplit_first "." file_name.

Definition log_path_of (a : Args) (time_str : string) : string :=
  path_join (output_dir a) (smc_name_of a +:+ "_" +:+ time_str +:+ ".txt").

Definition frame_temp_dir_of (a : Args) : string :=
  path_join (output_dir a) (smc_name_of a +:+ "_temp_frames").

Definition view_temp_dir_of (a : Args) (kinect_index : nat) : string :=
  path_join (frame_temp_dir_of a) ("view_" +:+ fmt_d 2 kinect_index).

Definition keypoints2d_path_of (a : Args) (index : nat) : string :=
  path_join (output_dir a)
    (smc_name_of a +:+ "_keypoints2d_" +:+ "view" +:+ fmt_d 2 index +:+ ".npz").

Definition keypoints3d_path_of (a : Args) : string :=
  path_join (output_dir a) (smc_name_of a +:+ "_keypoints3d.npz").

Definition smpl_type_of (smpl_data : option SMPLValue) : string :=
  match smpl_data with
  | Some (SMPLXData _) => "smplx"
  | _ => "smpl"
  end.

Definition smpl_path_of (a : Args) (smpl_type : string) : string :=
  path_join (output_dir a) (smc_name_of a +:+ "_" +:+ smpl_type +:+ "_data.npz").

Definition projected_path_of (a : Args) (view_idx : nat) : string :=
  path_join (output_dir a)
    (smc_name_of a +:+ "_projected" +:+ "_" +:+ fmt_d 2 view_idx +:+ ".mp4").

Definition keypoints3d_video_of (a : Args) : string :=
  path_join (output_dir a) (smc_name_of a +:+ "_keypoints3d.mp4").

Definition overlay_path_of (a : Args) (smpl_type : string) : string :=
  path_join (output_dir a) (smc_name_of a +:+ "_" +:+ smpl_type +:+ "_overlay.mp4").

(** Lines 30-46: output directory, logger, input file. *)
Definition check_paths (args : Args) : M unit :=
  let* exist_result := check_path_existence (output_dir args) TDir in
  let* _ :=
    match exist_result with
    | MissingParent => raise FileNotFoundError
    | DirectoryNotExist => os_mkdir (output_dir args)
    | _ => ret tt
    end in
  let* _ :=
    if negb (disable_log_file args) then
      let* t := now in
      let time_str := strftime t in
      setup_logger (Some (log_path_of args time_str))
    else setup_logger None in
  let* exist_result := check_path_existence (smc_path args) TFile in
  if decide (exist_result <> FileExist) then raise FileNotFoundError
  else ret tt.

(** Lines 47-55: reader, estimator, cameras. *)
Definition load_inputs (args : Args)
  : M (Capture * Estimator * list CameraParameter) :=
  let* smc_reader := SMCReader (smc_path args) in
  let* mview_sp_smpl_estimator :=
    (let* _ := emit (EvBuildEstimator (estimator_config args)) in
     lift (build_estimator (estimator_config args))) in
  let* cam_param_list :=
    (let* _ := emit EvLoadCameras in
     lift (get_all_color_kinect_parameter_from_smc smc_reader)) in
  ret (smc_reader, mview_sp_smpl_estimator, cam_param_list).

(** Lines 71-90: one turn of the loop over the kinects; the loop's
    variables are [keypoints2d_list] and [mview_img_list]. *)
Definition acquire_view (args : Args) (smc_reader : Capture)
    (mview_sp_smpl_estimator : Estimator)
    (acc : list (option Keypoints2D) * list (list string))
    (kinect_index : nat)
  : M (list (option Keypoints2D) * list (list string)) :=
  let '(keypoints2d_list, mview_img_list) := acc in
  if decide (frame_file args = FrameNone) then
    let* sv_img_array := get_kinect_color smc_reader kinect_index in
    let sv_img_array := rgb2bgr sv_img_array in
    let sv_img_array := [sv_img_array] in
    let* sv_keypoints2d_list :=
      (let* _ := emit (EvEstimateKeypoints2d kinect_index) in
       lift (estimate_keypoints2d mview_sp_smpl_estimator sv_img_array)) in
    ret (keypoints2d_list ++ sv_keypoints2d_list, mview_img_list)
  else
    let view_temp_dir := view_temp_dir_of args kinect_index in
    let* temp_dir_exist := check_path_existence view_temp_dir TDir in
    let* _ :=
      if negb (bool_decide (frame_file args = FrameKeep)
               && bool_decide (temp_dir_exist = DirectoryExistNotEmpty)) then
        let* sv_img_array := get_kinect_color smc_reader kinect_index in
        let sv_img_array := rgb2bgr sv_img_array in
        let* _ := emit (EvArrayToImages kinect_index view_temp_dir) in
        array_to_images sv_img_array view_temp_dir
      else ret tt in
    let* found := glob (path_join view_temp_dir "*.png") in
    let sview_img_list := sorted found in
    ret (keypoints2d_list, mview_img_list ++ [sview_img_list]).

(** Lines 56-90. *)
Definition acquire (args : Args) (smc_reader : Capture)
    (mview_sp_smpl_estimator : Estimator)
  : M (list (option Keypoints2D) * list (list string)) :=
  let* _ :=
    if decide (frame_file args <> FrameNone) then
      prepare_output_path_dir (frame_temp_dir_of args)
    else ret tt in
  for_each (seq 0 (num_kinects smc_reader))
    (acquire_view args smc_reader mview_sp_smpl_estimator) ([], []).

(** Lines 91-98. *)
Definition estimate (args : Args) (mview_sp_smpl_estimator : Estimator)
    (cam_param_list : list CameraParameter)
    (keypoints2d_list : list (option Keypoints2D))
    (mview_img_list : list (list string))
  : M (list (option Keypoints2D) * option Keypoints3D * option SMPLValue) :=
  if decide (frame_file args <> FrameNone) then
    let* _ := emit (EvRun cam_param_list mview_img_list) in
    let* fs := get_fs in
    lift (run mview_sp_smpl_estimator cam_param_list fs mview_img_list)
  else
    let* keypoints3d :=
      (let* _ := emit (EvEstimateKeypoints3d cam_param_list) in
       lift (estimate_keypoints3d mview_sp_smpl_estimator cam_param_list
               keypoints2d_list)) in
    let* smpl_data :=
      (let* _ := emit EvEstimateSmpl in
       lift (estimate_smpl mview_sp_smpl_estimator keypoints3d)) in
    ret (keypoints2d_list, keypoints3d, smpl_data).

(** Lines 99-107. *)
Definition dump_keypoints2d (args : Args)
    (keypoints2d_list : list (option Keypoints2D)) : M unit :=
  for_each (enumerate keypoints2d_list)
    (fun _ '(index, keypoints2d) =>
       let keypoints2d_path := keypoints2d_path_of args index in
       match keypoints2d with
       | Some k => dump (Some (Kp2dNpz k)) keypoints2d_path
       | None =>
           logger_warning
             ("No keypoints2d has been detected in view"
              +:+ fmt_d 2 index +:+ ".")
       end) tt.

(** Lines 99-117. *)
Definition write_results (args : Args)
    (keypoints2d_list : list (option Keypoints2D))
    (keypoints3d : option Keypoints3D) (smpl_data : option SMPLValue)
  : M string :=
  let* _ := dump_keypoints2d args keypoints2d_list in
  let* _ := dump (Kp3dNpz <$> keypoints3d) (keypoints3d_path_of args) in
  let smpl_type := smpl_type_of smpl_data in
  let smpl_path := smpl_path_of args smpl_type in
  let* _ := dump (SmplNpz <$> smpl_data) smpl_path in
  ret smpl_type.

(** Lines 125-153. *)
Definition visualize_keypoints3d (args : Args) (smc_reader : Capture)
    (projector : Projector) (keypoints3d : option Keypoints3D) : M unit :=
  match keypoints3d with
  | Some kps3d =>
      let* _ :=
        render_video (EvVisualizeKp3d (keypoints3d_video_of args))
          (keypoints3d_video_of args) in
      let n_view := length (camera_parameters projector) in
      let mview_kps2d := project projector kps3d in
      let* _ := emit (EvProject (length mview_kps2d)) in
      for_each (py_range 0 (length mview_kps2d) 3)
        (fun _ view_idx =>
           match mview_kps2d !! view_idx with
           | Some sview_kps2d =>
               let* image_array := get_kinect_color smc_reader view_idx in
               let image_array := rgb2bgr image_array in
               render_video
                 (EvVisualizeKp2d view_idx (projected_path_of args view_idx))
                 (projected_path_of args view_idx)
           | None => raise IndexError
           end) tt
  | None => ret tt
  end.

(** Lines 154-195. *)
Definition visualize_smpl (args : Args) (smc_reader : Capture)
    (cam_param_list : list CameraParameter)
    (smpl_data : option SMPLValue) (smpl_type : string) : M unit :=
  match smpl_data with
  | Some _ =>
      let selected_kinect := 1 in
      match cam_param_list !! selected_kinect with
      | None => raise IndexError
      | Some cam_param =>
          let* cam_param :=
            if world2cam cam_param then
              match inverse_extrinsic cam_param with
              | Some c => ret c
              | None => raise LinAlgError
              end
            else ret cam_param in
          let* image_array := get_kinect_color smc_reader selected_kinect in
          let image_array := rgb2bgr image_array in
          render_video
            (EvVisualizeSmplCalibration cam_param
               (overlay_path_of args smpl_type))
            (overlay_path_of args smpl_type)
      end
  | None => ret tt
  end.

(** Lines 118-119. *)
Definition cleanup (args : Args) : M unit :=
  if decide (frame_file args = FrameTemp) then
    shutil_rmtree (frame_temp_dir_of args)
  else ret tt.

(** Lines 122-195. *)
Definition visualize_results (args : Args) (smc_reader : Capture)
    (mview_sp_smpl_estimator : Estimator)
    (cam_param_list : list CameraParameter)
    (keypoints3d : option Keypoints3D) (smpl_data : option SMPLValue)
    (smpl_type : string) : M unit :=
  if visualize args then
    let projector := get_projector mview_sp_smpl_estimator cam_param_list in
    let* _ := visualize_keypoints3d args smc_reader projector keypoints3d in
    visualize_smpl args smc_reader cam_param_list smpl_data smpl_type
  else ret tt.

(** Lines 28-195. *)
Definition main (args : Args) : M unit :=
  let* _ := check_paths args in
  let* (smc_reader, mview_sp_smpl_estimator, cam_param_list) :=
    load_inputs args in
  let* (keypoints2d_list, mview_img_list) :=
    acquire args smc_reader mview_sp_smpl_estimator in
  let* (keypoints2d_list, keypoints3d, smpl_data) :=
    estimate args mview_sp_smpl_estimator cam_param_list
      keypoints2d_list mview_img_list in
  let* smpl_type :=
    write_results args keypoints2d_list keypoints3d smpl_data in
  let* _ := cleanup args in
  visualize_results args smc_reader mview_sp_smpl_estimator cam_param_list
    keypoints3d smpl_data smpl_type.

(** Lines 28-55: the run up to the loaded cameras. *)
Definition configure (args : Args)
  : M (Capture * Estimator * list CameraParameter) :=
  let* _ := check_paths args in load_inputs args.

(** Lines 28-117: the run up to the written artifacts. *)
Definition process (args : Args)
  : M (Capture * Estimator * list CameraParameter
       * option Keypoints3D * option SMPLValue * string) :=
  let* (smc_reader, mview_sp_smpl_estimator, cam_param_list) :=
    configure args in
  let* (keypoints2d_list, mview_img_list) :=
    acquire args smc_reader mview_sp_smpl_estimator in
  let* (keypoints2d_list, keypoints3d, smpl_data) :=
    estimate args mview_sp_smpl_estimator cam_param_list
      keypoints2d_list mview_img_list in
  let* smpl_type :=
    write_results args keypoints2d_list keypoints3d smpl_data in
  ret (smc_reader, mview_sp_smpl_estimator, cam_param_list,
       keypoints3d, smpl_data, smpl_type).

(** Lines 118-195. *)
Definition finish (args : Args)
    (st : Capture * Estimator * list CameraParameter
          * option Keypoints3D * option SMPLValue * string) : M unit :=
  let '(smc_reader, mview_sp_smpl_estimator, cam_param_list,
        keypoints3d, smpl_data, smpl_type) := st in
  let* _ := cleanup args in
  visualize_results args smc_reader mview_sp_smpl_estimator cam_param_list
    keypoints3d smpl_data smpl_type.

(** Lines 28-98: the run up to the estimator's results. *)
Definition reconstruct (args : Args)
  : M (Capture * Estimator * list CameraParameter
       * list (option Keypoints2D) * option Keypoints3D * option SMPLValue) :=
  let* (smc_reader, mview_sp_smpl_estimator, cam_param_list) :=
    configure args in
  let* (keypoints2d_list, mview_img_list) :=
    acquire args smc_reader mview_sp_smpl_estimator in
  let* (keypoints2d_list, keypoints3d, smpl_data) :=
    estimate args mview_sp_smpl_estimator cam_param_list
      keypoints2d_list mview_img_list in
  ret (smc_reader, mview_sp_smpl_estimator, cam_param_list,
       keypoints2d_list, keypoints3d, smpl_data).

(** Lines 56-195: the run from the loaded cameras on. *)
Definition continue (args : Args) (smc_reader : Capture)
    (mview_sp_smpl_estimator : Estimator)
    (cam_param_list : list CameraParameter) : M unit :=
  let* (keypoints2d_list, mview_img_list) :=
    acquire args smc_reader mview_sp_smpl_estimator in
  let* (keypoints2d_list, keypoints3d, smpl_data) :=
    estimate args mview_sp_smpl_estimator cam_param_list
      keypoints2d_list mview_img_list in
  let* smpl_type :=
    write_results args keypoints2d_list keypoints3d smpl_data in
  let* _ := cleanup args in
  visualize_results args smc_reader mview_sp_smpl_estimator cam_param_list
    keypoints3d smpl_data smpl_type.

(** ** Vocabulary of the properties *)

(** The world with its file system replaced. *)
Definition with_fs (w : world) (fs : gmap string node) : world :=
  {| w_fs := fs; w_log := w_log w; w_clock := w_clock w; w_trace := w_trace w |}.

(** What [check_path_existence] answers on a file system. *)
Definition existence_of (fs : gmap string node) (p : string) (t : path_type)
  : Existence :=
  match t with
  | TDir =>
      if isdir fs p then
        if dir_nonempty fs p then DirectoryExistNotEmpty
        else DirectoryExistEmpty
      else if isdir fs (dirname p) then DirectoryNotExist
      else MissingParent
  | TFile =>
      if isfile fs p then FileExist
      else if isdir fs (dirname p) then FileNotExist
      else MissingParent
  end.

(** [m] relates the world it starts in to the world it leaves, whatever
    its outcome. *)
Definition always {A} (R : relation world) (m : M A) : Prop :=
  forall w r w', m w = (r, w') -> R w w'.

(** The calls made between two worlds. *)
Definition trace_between (w w' : world) (t : list event) : Prop :=
  w_trace w' = w_trace w ++ t.

(** Only calls satisfying [P] were made. *)
Definition trace_ext (P : event -> Prop) (w w' : world) : Prop :=
  exists t, trace_between w w' t /\ Forall P t.

(** Only paths satisfying [S] were touched. *)
Definition fs_frame (S : string -> Prop) (w w' : world) : Prop :=
  forall p, ~ S p -> w_fs w' !! p = w_fs w !! p.

(** Nothing was removed: directories stay directories, files stay files. *)
Definition fs_grows (w w' : world) : Prop :=
  forall p, (w_fs w !! p = Some Dir -> w_fs w' !! p = Some Dir)
            /\ (isfile (w_fs w) p = true -> isfile (w_fs w') p = true).

Definition load_event (e : event) : Prop :=
  match e with
  | EvSMCReader _ | EvBuildEstimator _ | EvLoadCameras => True
  | _ => False
  end.

Definition acquire_event (e : event) : Prop :=
  match e with
  | EvGetKinectColor _ | EvArrayToImages _ _ | EvEstimateKeypoints2d _ => True
  | _ => False
  end.

Definition estimate_event (e : event) : Prop :=
  match e with
  | EvRun _ _ | EvEstimateKeypoints3d _ | EvEstimateSmpl => True
  | _ => False
  end.

Definition dump_event (e : event) : Prop :=
  match e with EvDump _ _ => True | _ => False end.

(** The calls a run makes before it cleans up and visualises. *)
Definition process_event (e : event) : Prop :=
  load_event e \/ acquire_event e \/ estimate_event e \/ dump_event e.

Global Instance dump_event_dec e : Decision (dump_event e).
Proof. destruct e; simpl; apply _. Defined.

(** The dumps of the per-view 2D keypoints: one per present view, named
    by the view's position in the list. *)
Definition keypoints2d_dumps (args : Args)
    (keypoints2d_list : list (option Keypoints2D)) : list event :=
  mjoin ((fun '(index, keypoints2d) =>
            match keypoints2d with
            | Some k => [EvDump (keypoints2d_path_of args index) (Kp2dNpz k)]
            | None => []
            end) <$> enumerate keypoints2d_list).

(** All dumps of a run, in the order they are made. *)
Definition artifact_dumps (args : Args)
    (keypoints2d_list : list (option Keypoints2D))
    (keypoints3d : Keypoints3D) (smpl_data : SMPLValue) : list event :=
  keypoints2d_dumps args keypoints2d_list
  ++ [EvDump (keypoints3d_path_of args) (Kp3dNpz keypoints3d);
      EvDump (smpl_path_of args (smpl_type_of (Some smpl_data)))
        (SmplNpz smpl_data)].

Definition rmtree_event (e : event) : Prop :=
  match e with EvRmtree _ => True | _ => False end.

Definition overlay_event (e : event) : Prop :=
  match e with
  | EvGetKinectColor _ | EvVisualizeSmplCalibration _ _ => True
  | _ => False
  end.

(** No frames were written out for kinect [k]. *)
Definition not_materialized (k : nat) (e : event) : Prop :=
  match e with
  | EvArrayToImages j _ => j <> k
  | _ => True
  end.

(** Nothing was removed and only calls satisfying [P] were made. *)
Definition grows_and (P : event -> Prop) (w w' : world) : Prop :=
  fs_grows w w' /\ trace_ext P w w'.

(** [p] is a directory holding at least one entry. *)
Definition populated (p : string) (w : world) : Prop :=
  isdir (w_fs w) p = true /\ dir_nonempty (w_fs w) p = true.

(** [m] relates start and end worlds when started where [I] holds. *)
Definition always_from {A} (I : world -> Prop) (R : relation world) (m : M A)
  : Prop :=
  forall w r w', I w -> m w = (r, w') -> R w w'.

(** A per-view list of frame paths in the order of its paths and, all
    paths lying in one directory, of its file names. *)
Definition frame_list_sorted (l : list string) : Prop :=
  StronglySorted String.le l
  /\ StronglySorted (fun p q => String.le (basename p) (basename q)) l.

(** The batch estimator is handed sorted per-view lists only. *)
Definition run_lists_sorted (e : event) : Prop :=
  match e with
  | EvRun _ img_paths => Forall frame_list_sorted img_paths
  | _ => True
  end.

(** The overlay renderer is handed a camera-to-world camera. *)
Definition overlay_cam2world (e : event) : Prop :=
  match e with
  | EvVisualizeSmplCalibration cam _ => world2cam cam = false
  | _ => True
  end.

Definition visualize_event (e : event) : Prop :=
  match e with
  | EvGetKinectColor _ | EvProject _ | EvVisualizeKp3d _
  | EvVisualizeKp2d _ _ | EvVisualizeSmplCalibration _ _ => True
  | _ => False
  end.

(** What the set-up of a run may have made: the output directory and the
    log file, each only where nothing was before. *)
Definition setup_footprint (args : Args) (w w1 : world) : Prop :=
  forall p,
    w_fs w1 !! p = w_fs w !! p
    \/ (p = output_dir args /\ w_fs w !! p = None /\ w_fs w1 !! p = Some Dir)
    \/ (disable_log_file args = false
        /\ p = log_path_of args (strftime (w_clock w))
        /\ w_fs w !! p = None /\ w_fs w1 !! p = Some (File TextFile)).

(** A projection is over [n_view] views, a projected-overlay video is of
    a view 0, 3, 6, ... below [n_view] and goes to that view's path. *)
Definition projection_event (args : Args) (n_view : nat) (e : event) : Prop :=
  match e with
  | EvProject n => n = n_view
  | EvVisualizeKp2d v p =>
      v < n_view /\ v mod 3 = 0 /\ p = projected_path_of args v
  | _ => True
  end.

End Pipeline.

(** ** Sample runs

    A small capture and stand-in collaborators on which the script can be
    run: frames are numbers, a view's 2D keypoints are its frames (absent
    when the view has none), the fused keypoints are the per-view keypoints
    and the fit is an SMPL-X value. *)

Definition sample_estimator : @Estimator nat (list nat) (list (option (list nat))) nat nat :=
  {| estimate_keypoints2d imgs :=
       Ok (map (fun v => match v with [] => None | _ => Some v end) imgs);
     estimate_keypoints3d cams kps := Ok (Some kps);
     estimate_smpl k := Ok (Some (SMPLXData (length (default [] k))));
     run cams fs paths :=
       let imgs :=
         map (omap (fun p => match fs !! p with
                             | Some (File (Image f)) => Some f
                             | _ => None
                             end)) paths in
       let kps := map (fun v => match v with [] => None | _ => Some v end) imgs in
       Ok (kps, Some kps, Some (SMPLXData (length kps)));
     get_projector cams :=
       {| camera_parameters := cams; project_view c k := length k |} |}.

(** An estimator whose batch run and triangulation raise. *)
Definition failing_estimator
  : @Estimator nat (list nat) (list (option (list nat))) nat nat :=
  {| estimate_keypoints2d := estimate_keypoints2d sample_estimator;
     estimate_keypoints3d cams kps := Raise (ExternalError "triangulator");
     estimate_smpl := estimate_smpl sample_estimator;
     run cams fs paths := Raise (ExternalError "estimator");
     get_projector := get_projector sample_estimator |}.

Definition sample_camera (flag : bool) : CameraParameter :=
  {| intrinsic := ((1, 0, 0), (0, 1, 0), (0, 0, 1))%Q;
     extrinsic_r := ((0, -1, 0), (1, 0, 0), (0, 0, 1))%Q;
     extrinsic_t := (1, 2, 3)%Q;
     world2cam := flag |}.

(** Four kinects; the third one recorded nothing. *)
Definition sample_capture : @Capture nat :=
  {| kinect_color := [[11; 12; 13]; [21; 22; 23]; []; [41; 42; 43]];
     calibration := [sample_camera false; sample_camera false;
                     sample_camera false; sample_camera false] |}.

(** The same capture with every extrinsic stored world-to-camera. *)
Definition sample_capture_w2c : @Capture nat :=
  {| kinect_color := kinect_color sample_capture;
     calibration := [sample_camera true; sample_camera true;
                     sample_camera true; sample_camera true] |}.

Definition sample_clock : datetime :=
  {| year := 2022; month := 7; day := 4; hour := 9; minute := 30; second := 5 |}.

(** A working directory holding [data/session07.smc] and nothing else. *)
Definition sample_world : @world nat (list nat) (list (option (list nat))) nat :=
  {| w_fs := <["data" := Dir]>
               (<["data/session07.smc" := File (SmcFile sample_capture)]> ∅);
     w_log := [];
     w_clock := sample_clock;
     w_trace := [] |}.

Definition sample_world_w2c
  : @world nat (list nat) (list (option (list nat))) nat :=
  {| w_fs := <["data" := Dir]>
               (<["data/session07.smc" := File (SmcFile sample_capture_w2c)]> ∅);
     w_log := [];
     w_clock := sample_clock;
     w_trace := [] |}.

(** The working directory after an earlier run left one frame of view 1
    in the frame cache. *)
Definition sample_world_cached
  : @world nat (list nat) (list (option (list nat))) nat :=
  {| w_fs :=
       <["out" := Dir]>
         (<["out/session07_temp_frames" := Dir]>
            (<["out/session07_temp_frames/view_01" := Dir]>
               (<["out/session07_temp_frames/view_01/000001.png"
                  := File (Image 99)]> (w_fs sample_world))));
     w_log := [];
     w_clock := sample_clock;
     w_trace := [] |}.

Definition sample_args (ff : frame_file_choice) (vis : bool) : Args :=
  {| smc_path := "data/session07.smc";
     output_dir := "out";
     estimator_config := "configs/humman_mocap/mview_sperson_smpl_estimator.py";
     visualize := vis;
     frame_file := ff;
     disable_log_file := false |}.

(** The same invocation with an input path that does not exist. *)
Definition missing_input_args : Args :=
  {| smc_path := "data/missing.smc";
     output_dir := "out";
     estimator_config := "configs/humman_mocap/mview_sperson_smpl_estimator.py";
     visualize := false;
     frame_file := FrameNone;
     disable_log_file := false |}.

(** The same invocation with an output directory below a missing one. *)
Definition missing_parent_args : Args :=
  {| smc_path := "data/session07.smc";
     output_dir := "results/run1";
     estimator_config := "configs/humman_mocap/mview_sperson_smpl_estimator.py";
     visualize := false;
     frame_file := FrameNone;
     disable_log_file := false |}.

Definition sample_main (args : Args) :=
  main (ViewKeypoints := nat) (fun a => a) (fun _ => Ok sample_estimator)
    (fun c => Ok (calibration c)) args.

(** * Properties *)

(** ** Strings, decimal formatting and paths *)

Lemma str_app_cons x (a b : string) : String x a +:+ b = String x (a +:+ b).
Proof. reflexivity. Qed.

Lemma str_app_nil (b : string) : "" +:+ b = b.
Proof. reflexivity. Qed.

Lemma has_char_app c a b : has_char c (a +:+ b) = has_char c a || has_char c b.
Proof.
  induction a as [|x a IH]; simpl; [done|].
  rewrite IH. by rewrite orb_assoc.
Qed.

Lemma rsplit1_None c s : rsplit1 c s = None <-> has_char c s = false.
Proof.
  induction s as [|a s IH]; simpl; [done|].
  destruct (rsplit1 c s) as [[h t]|].
  - split; [done|]. intros [_ H]%orb_false_iff.
    apply IH in H. done.
  - destruct (Ascii.eqb a c); simpl; [done|]. by rewrite <- IH.
Qed.

Lemma rsplit1_Some c s h t :
  rsplit1 c s = Some (h, t) -> s = h +:+ String c t /\ has_char c t = false.
Proof.
  revert h. induction s as [|a s IH]; intros h; simpl; [done|].
  destruct (rsplit1 c s) as [[h' t']|] eqn:E.
  - intros [= <- <-]. destruct (IH h' eq_refl) as [-> ?]. done.
  - destruct (Ascii.eqb_spec a c) as [->|]; [|done].
    intros [= <- <-]. split; [done|]. by apply rsplit1_None.
Qed.

Lemma rsplit1_app c h t :
  has_char c t = false -> rsplit1 c (h +:+ String c t) = Some (h, t).
Proof.
  intros Ht. induction h as [|a h IH]; simpl.
  - apply rsplit1_None in Ht. rewrite Ht. by rewrite Ascii.eqb_refl.
  - change (String.append h (String c t)) with (h +:+ String c t).
    by rewrite IH.
Qed.

Lemma rsplit_last_no_char c s : has_char c (rsplit_last c s) = false.
Proof.
  unfold rsplit_last. destruct (rsplit1 c s) as [[h t]|] eqn:E.
  - by apply rsplit1_Some in E as [_ ?].
  - by apply rsplit1_None.
Qed.

Lemma rsplit_first_no_char c d s :
  has_char c s = false -> has_char c (rsplit_first d s) = false.
Proof.
  unfold rsplit_first. destruct (rsplit1 d s) as [[h t]|] eqn:E; [|done].
  apply rsplit1_Some in E as [-> _]. rewrite has_char_app.
  by intros [? _]%orb_false_iff.
Qed.

Lemma endswith_char_app c a b :
  b <> "" -> endswith_char c (a +:+ b) = endswith_char c b.
Proof.
  intros Hb. induction a as [|x a IH]; [done|].
  simpl. change (String.append a b) with (a +:+ b).
  destruct (a +:+ b) eqn:E; [|done].
  destruct a; [simpl in E; done|done].
Qed.

Lemma endswith_refl s : endswith s s = true.
Proof. destruct s; cbn [endswith]; by rewrite String.eqb_refl. Qed.

Lemma endswith_app suffix a : endswith suffix (a +:+ suffix) = true.
Proof.
  induction a as [|x a IH]; [apply endswith_refl|].
  rewrite str_app_cons. cbn [endswith].
  rewrite IH. by rewrite orb_true_r.
Qed.

Lemma str_app_assoc (a b c : string) : (a +:+ b) +:+ c = a +:+ (b +:+ c).
Proof.
  induction a as [|x a IH]; [done|]. rewrite !str_app_cons. by rewrite IH.
Qed.

Lemma str_app_length (a b : string) :
  String.length (a +:+ b) = String.length a + String.length b.
Proof.
  induction a as [|x a IH]; [done|]. rewrite str_app_cons. cbn [String.length].
  by rewrite IH.
Qed.

Lemma digit_char_code d : nat_of_ascii (digit_char d) = 48 + d mod 10.
Proof.
  unfold digit_char. apply nat_ascii_embedding.
  pose proof (Nat.mod_upper_bound d 10). lia.
Qed.

Lemma digits_length w n acc :
  String.length (digits w n acc) = w + String.length acc.
Proof.
  revert n acc. induction w as [|w IH]; intros n acc; cbn [digits]; [done|].
  rewrite IH. cbn [String.length]. lia.
Qed.

Lemma has_char_digits c w n acc :
  nat_of_ascii c < 48 \/ 58 <= nat_of_ascii c ->
  has_char c (digits w n acc) = has_char c acc.
Proof.
  intros Hc. revert n acc.
  induction w as [|w IH]; intros n acc; cbn [digits]; [done|].
  rewrite IH. cbn [has_char].
  destruct (Ascii.eqb_spec (digit_char n) c) as [<-|]; [|done].
  rewrite digit_char_code in Hc.
  pose proof (Nat.mod_upper_bound n 10). lia.
Qed.

Lemma has_char_fmt_d c w n :
  nat_of_ascii c < 48 \/ 58 <= nat_of_ascii c -> has_char c (fmt_d w n) = false.
Proof. intros Hc. unfold fmt_d. by rewrite has_char_digits. Qed.

Lemma dec_value_digits w n rest acc :
  dec_value (digits w n rest) acc = dec_value rest (acc * 10 ^ w + n mod 10 ^ w).
Proof.
  revert n rest acc. induction w as [|w IH]; intros n rest acc.
  - cbn [digits]. f_equal. rewrite Nat.pow_0_r, Nat.mod_1_r. lia.
  - cbn [digits]. rewrite IH. cbn [dec_value]. f_equal.
    rewrite digit_char_code.
    replace (10 ^ S w) with (10 * 10 ^ w) by (rewrite Nat.pow_succ_r'; lia).
    rewrite (Nat.Div0.mod_mul_r n 10 (10 ^ w)). lia.
Qed.

Lemma ndigits_aux_bound fuel n : n <= fuel -> n < 10 ^ ndigits_aux fuel n.
Proof.
  revert n. induction fuel as [|f IH]; intros n Hn.
  - cbn [ndigits_aux]. rewrite Nat.pow_1_r. lia.
  - cbn [ndigits_aux]. destruct (Nat.ltb_spec n 10) as [H|H].
    + rewrite Nat.pow_1_r. lia.
    + assert (n / 10 <= f) as Hf.
      { pose proof (Nat.Div0.div_lt_upper_bound n 10 (S f)). lia. }
      specialize (IH _ Hf).
      replace (10 ^ S (ndigits_aux f (n / 10)))
        with (10 * 10 ^ ndigits_aux f (n / 10)) by (rewrite Nat.pow_succ_r'; lia).
      pose proof (Nat.div_mod_eq n 10).
      pose proof (Nat.mod_upper_bound n 10). lia.
Qed.

Lemma ndigits_bound n : n < 10 ^ ndigits n.
Proof. by apply ndigits_aux_bound. Qed.

(** Reading back what [fmt_d] printed gives the number. *)
Lemma dec_value_fmt_d w n : dec_value (fmt_d w n) 0 = n.
Proof.
  unfold fmt_d. rewrite dec_value_digits. cbn [dec_value].
  rewrite Nat.mul_0_l, Nat.add_0_l.
  apply Nat.mod_small.
  eapply Nat.lt_le_trans; [apply ndigits_bound|].
  apply Nat.pow_le_mono_r; lia.
Qed.

Lemma fmt_d_inj w n m : fmt_d w n = fmt_d w m -> n = m.
Proof.
  intros H. rewrite <- (dec_value_fmt_d w n), <- (dec_value_fmt_d w m).
  by rewrite H.
Qed.

Lemma fmt_d_nonempty w n : fmt_d w n <> "".
Proof.
  intros H. apply (f_equal String.length) in H.
  unfold fmt_d in H. rewrite digits_length in H. cbn [String.length] in H.
  assert (1 <= ndigits n).
  { unfold ndigits. destruct n; cbn [ndigits_aux]; [lia|].
    destruct (_ <? _); lia. }
  lia.
Qed.

Lemma elem_of_range_from fuel start stop step x :
  0 < step -> stop - start <= fuel ->
  x ∈ range_from fuel start stop step
  <-> start <= x < stop /\ (x - start) mod step = 0.
Proof.
  intros Hstep. revert start.
  induction fuel as [|f IH]; intros start Hf; cbn [range_from].
  - rewrite elem_of_nil. lia.
  - destruct (Nat.ltb_spec start stop) as [Hlt|Hge].
    + rewrite elem_of_cons, IH by lia. split.
      * intros [->|[[? ?] Hm]].
        { rewrite Nat.sub_diag. split; [lia|]. by apply Nat.Div0.mod_0_l. }
        split; [lia|].
        replace (x - start) with ((x - (start + step)) + 1 * step) by lia.
        by rewrite Nat.Div0.mod_add.
      * intros [[? ?] Hm].
        destruct (decide (x = start)) as [->|Hne]; [by left|right].
        assert (step <= x - start) as Hle.
        { destruct (Nat.lt_ge_cases (x - start) step) as [Hs|]; [|done].
          rewrite Nat.mod_small in Hm by done. lia. }
        split; [lia|].
        replace (x - start) with ((x - (start + step)) + 1 * step) in Hm by lia.
        by rewrite Nat.Div0.mod_add in Hm.
    + rewrite elem_of_nil. lia.
Qed.

Lemma elem_of_py_range stop step x :
  0 < step -> x ∈ py_range 0 stop step <-> x < stop /\ x mod step = 0.
Proof.
  intros Hstep. unfold py_range. rewrite elem_of_range_from by lia.
  rewrite Nat.sub_0_r. intuition lia.
Qed.

(** *** Paths *)

Lemma has_char_startswith c s : has_char c s = false -> startswith_char c s = false.
Proof. destruct s; simpl; [done|]. by intros [? _]%orb_false_iff. Qed.

Lemma has_char_endswith c s : has_char c s = false -> endswith_char c s = false.
Proof.
  induction s as [|a s IH]; [done|].
  cbn [has_char endswith_char]. intros [Ha Hs]%orb_false_iff.
  destruct s; [done|]. by apply IH.
Qed.

Lemma path_join_component a b :
  normal_dir a -> component b ->
  path_join a b = if String.eqb a "" then b else a +:+ String "/" b.
Proof.
  intros Ha [Hb Hs]. unfold path_join.
  rewrite (has_char_startswith _ _ Hs), Ha, orb_false_r.
  destruct (String.eqb_spec a "") as [->|]; done.
Qed.

Lemma dirname_path_join a b :
  normal_dir a -> component b -> dirname (path_join a b) = a.
Proof.
  intros Ha Hb. rewrite path_join_component by done.
  unfold dirname. destruct (String.eqb_spec a "") as [->|Hne].
  - destruct Hb as [_ Hb]. apply rsplit1_None in Hb. by rewrite Hb.
  - destruct Hb as [_ Hb]. by rewrite rsplit1_app.
Qed.

Lemma basename_path_join a b :
  normal_dir a -> component b -> basename (path_join a b) = b.
Proof.
  intros Ha Hb. rewrite path_join_component by done.
  unfold basename, rsplit_last. destruct (String.eqb_spec a "") as [->|Hne].
  - destruct Hb as [_ Hb]. apply rsplit1_None in Hb. by rewrite Hb.
  - destruct Hb as [_ Hb]. by rewrite rsplit1_app.
Qed.

Lemma path_join_inj a b b' :
  normal_dir a -> component b -> component b' ->
  path_join a b = path_join a b' -> b = b'.
Proof.
  intros Ha Hb Hb' H.
  rewrite <- (basename_path_join a b), <- (basename_path_join a b') by done.
  by rewrite H.
Qed.

Lemma normal_dir_path_join a b :
  normal_dir a -> component b -> normal_dir (path_join a b).
Proof.
  intros Ha Hb. rewrite path_join_component by done.
  unfold normal_dir. destruct Hb as [Hb Hs].
  destruct (String.eqb a "").
  - by apply has_char_endswith.
  - rewrite endswith_char_app by done.
    cbn [endswith_char]. destruct b; [done|].
    by apply (has_char_endswith _ (String _ _)).
Qed.

Lemma path_join_nonempty a b :
  normal_dir a -> component b -> path_join a b <> "".
Proof.
  intros Ha Hb. rewrite path_join_component by done.
  destruct Hb as [Hb _]. destruct (String.eqb a ""); [done|].
  destruct a; done.
Qed.

Lemma dirname_neq_self a b :
  normal_dir a -> component b -> path_join a b <> a.
Proof.
  intros Ha Hb. rewrite path_join_component by done.
  destruct Hb as [Hb _].
  destruct (String.eqb_spec a "") as [->|Hne]; [done|].
  intros H. apply (f_equal String.length) in H.
  rewrite str_app_length in H. simpl in H. lia.
Qed.

(** ** The monad *)

Section Monad.
Context {Frame Keypoints2D Keypoints3D BodyParams : Type}.
Local Abbreviation world := (@world Frame Keypoints2D Keypoints3D BodyParams).
Local Abbreviation M := (@M Frame Keypoints2D Keypoints3D BodyParams).

Lemma bind_eq {A B} (m : M A) (k : A -> M B) w :
  bind m k w = match m w with
               | (Ok a, w') => k a w'
               | (Raise e, w') => (Raise e, w')
               end.
Proof. reflexivity. Qed.

Lemma bind_Ok {A B} (m : M A) (k : A -> M B) w b w' :
  bind m k w = (Ok b, w') ->
  exists a w1, m w = (Ok a, w1) /\ k a w1 = (Ok b, w').
Proof.
  rewrite bind_eq. destruct (m w) as [[a|e] w1]; [eauto|done].
Qed.

Lemma bind_Raise {A B} (m : M A) (k : A -> M B) w e w' :
  bind m k w = (Raise e, w') ->
  m w = (Raise e, w') \/ exists a w1, m w = (Ok a, w1) /\ k a w1 = (Raise e, w').
Proof.
  rewrite bind_eq. destruct (m w) as [[a|e'] w1]; [eauto|].
  intros [= -> ->]. by left.
Qed.

Lemma for_each_nil {A S} (body : S -> A -> M S) acc w :
  for_each [] body acc w = (Ok acc, w).
Proof. reflexivity. Qed.

Lemma for_each_cons {A S} x (l : list A) (body : S -> A -> M S) acc :
  for_each (x :: l) body acc
  = bind (body acc x) (fun acc' => for_each l body acc').
Proof. reflexivity. Qed.

Lemma for_each_app {A S} (l1 l2 : list A) (body : S -> A -> M S) acc w :
  for_each (l1 ++ l2) body acc w
  = bind (for_each l1 body acc) (fun acc' => for_each l2 body acc') w.
Proof.
  revert acc w. induction l1 as [|x l1 IH]; intros acc w; [done|].
  cbn [app]. rewrite !for_each_cons, !bind_eq.
  destruct (body acc x w) as [[a|e] w1]; [|done].
  rewrite IH. by rewrite bind_eq.
Qed.

Section Always.
Context (R : relation world) `{!PreOrder R}.

Lemma always_ret {A} (a : A) : always R (ret a).
Proof. intros w r w'. unfold ret. intros [= _ <-]. reflexivity. Qed.

Lemma always_raise {A} e : always R (raise (A:=A) e).
Proof. intros w r w'. unfold raise. intros [= _ <-]. reflexivity. Qed.

Lemma always_lift {A} (x : result A) : always R (lift x).
Proof. intros w r w'. unfold lift. intros [= _ <-]. reflexivity. Qed.

Lemma always_get_fs : always R get_fs.
Proof. intros w r w'. unfold get_fs. intros [= _ <-]. reflexivity. Qed.

Lemma always_now : always R now.
Proof. intros w r w'. unfold now. intros [= _ <-]. reflexivity. Qed.

Lemma always_bind {A B} (m : M A) (k : A -> M B) :
  always R m -> (forall a, always R (k a)) -> always R (bind m k).
Proof.
  intros Hm Hk w r w'. rewrite bind_eq.
  destruct (m w) as [[a|e] w1] eqn:E.
  - intros H. etrans; [by eapply Hm|by eapply Hk].
  - intros [= _ <-]. by eapply Hm.
Qed.

Lemma always_for_each {A S} (l : list A) (body : S -> A -> M S) acc :
  (forall s x, x ∈ l -> always R (body s x)) ->
  always R (for_each l body acc).
Proof.
  revert acc. induction l as [|x l IH]; intros acc Hb.
  - apply always_ret.
  - rewrite for_each_cons. apply always_bind.
    + apply Hb. left.
    + intros a. apply IH. intros s y Hy. apply Hb. by right.
Qed.
End Always.

Lemma always_weaken {A} (R R' : relation world) (m : M A) :
  (forall w w', R w w' -> R' w w') -> always R m -> always R' m.
Proof. intros HR Hm w r w' H. eapply HR, Hm, H. Qed.

Global Instance trace_ext_preorder P : PreOrder (trace_ext (Frame:=Frame)
  (Keypoints2D:=Keypoints2D) (Keypoints3D:=Keypoints3D) (BodyParams:=BodyParams) P).
Proof.
  split.
  - intros w. exists []. split; [|done]. unfold trace_between.
    by rewrite app_nil_r.
  - intros w1 w2 w3 (t1 & H1 & P1) (t2 & H2 & P2). exists (t1 ++ t2).
    split; [|by apply Forall_app]. unfold trace_between in *.
    by rewrite H2, H1, app_assoc.
Qed.

Global Instance fs_frame_preorder S : PreOrder (fs_frame (Frame:=Frame)
  (Keypoints2D:=Keypoints2D) (Keypoints3D:=Keypoints3D) (BodyParams:=BodyParams) S).
Proof.
  split.
  - by intros w p _.
  - intros w1 w2 w3 H1 H2 p Hp. by rewrite H2, H1.
Qed.

Global Instance fs_grows_preorder : PreOrder (fs_grows (Frame:=Frame)
  (Keypoints2D:=Keypoints2D) (Keypoints3D:=Keypoints3D) (BodyParams:=BodyParams)).
Proof.
  split.
  - by intros w p.
  - intros w1 w2 w3 H1 H2 p. destruct (H1 p), (H2 p). split; auto.
Qed.

End Monad.

Create HintDb always discriminated.
Create HintDb pipeline discriminated.

Ltac always_step :=
  lazymatch goal with
  | |- always _ (bind _ _) => apply always_bind; [try apply _| |intros ?]
  | |- always _ (ret _) => apply always_ret; try apply _
  | |- always _ (raise _) => apply always_raise; try apply _
  | |- always _ (lift _) => apply always_lift; try apply _
  | |- always _ get_fs => apply always_get_fs; try apply _
  | |- always _ now => apply always_now; try apply _
  | |- always _ (for_each _ _ _) =>
      apply always_for_each; [try apply _|intros ? ? ?; cbv beta]
  | |- always _ (match ?x with _ => _ end) => destruct x eqn:?
  end.

Ltac inv_elem H :=
  repeat first
    [ apply elem_of_nil in H; destruct H
    | apply elem_of_cons in H as [H|H]; [simplify_eq|] ].

Ltac always_go :=
  repeat first
    [ solve [eauto with always]
    | always_step
    | progress autounfold with pipeline ].

Section Traces.
Local Notation "'let*' x := m 'in' k" := (bind m (fun x => k))
  (at level 10, x pattern, m at level 100, k at level 200, only parsing).
Context {Frame Keypoints2D Keypoints3D BodyParams ViewKeypoints : Type}.
Local Abbreviation world := (@world Frame Keypoints2D Keypoints3D BodyParams).
Local Abbreviation M := (@M Frame Keypoints2D Keypoints3D BodyParams).
Local Abbreviation event := (@event Frame Keypoints2D Keypoints3D BodyParams).
Local Abbreviation Estimator :=
  (@Estimator Frame Keypoints2D Keypoints3D BodyParams ViewKeypoints).
Local Abbreviation always := (@always Frame Keypoints2D Keypoints3D BodyParams).
Local Abbreviation artifact_dumps := (@artifact_dumps Frame Keypoints2D Keypoints3D BodyParams).
Local Abbreviation keypoints2d_dumps := (@keypoints2d_dumps Frame Keypoints2D Keypoints3D BodyParams).
Local Abbreviation dump_event := (@dump_event Frame Keypoints2D Keypoints3D BodyParams).
Local Abbreviation load_event := (@load_event Frame Keypoints2D Keypoints3D BodyParams).
Local Abbreviation acquire_event := (@acquire_event Frame Keypoints2D Keypoints3D BodyParams).
Local Abbreviation estimate_event := (@estimate_event Frame Keypoints2D Keypoints3D BodyParams).
Local Abbreviation rmtree_event := (@rmtree_event Frame Keypoints2D Keypoints3D BodyParams).
Local Abbreviation visualize_event := (@visualize_event Frame Keypoints2D Keypoints3D BodyParams).
Local Abbreviation overlay_event := (@overlay_event Frame Keypoints2D Keypoints3D BodyParams).
Local Abbreviation process_event := (@process_event Frame Keypoints2D Keypoints3D BodyParams).
Local Abbreviation check_paths := (@check_paths Frame Keypoints2D Keypoints3D BodyParams).
Local Abbreviation write_results := (@write_results Frame Keypoints2D Keypoints3D BodyParams).
Local Abbreviation dump_keypoints2d := (@dump_keypoints2d Frame Keypoints2D Keypoints3D BodyParams).
Local Abbreviation cleanup := (@cleanup Frame Keypoints2D Keypoints3D BodyParams).
Local Abbreviation trace_between := (@trace_between Frame Keypoints2D Keypoints3D BodyParams).
Local Abbreviation trace_ext := (@trace_ext Frame Keypoints2D Keypoints3D BodyParams).
Local Abbreviation fs_frame := (@fs_frame Frame Keypoints2D Keypoints3D BodyParams).
Local Abbreviation fs_grows := (@fs_grows Frame Keypoints2D Keypoints3D BodyParams).
Variable rgb2bgr : list Frame -> list Frame.
Variable build_estimator : string -> result Estimator.
Variable get_all_color_kinect_parameter_from_smc :
  @Capture Frame -> result (list CameraParameter).

Implicit Types (P : event -> Prop) (w : world) (args : Args)
  (est : Estimator) (smc : @Capture Frame)
  (kps : list (option Keypoints2D)) (kd : option Keypoints3D)
  (sd : option (@SMPLValue BodyParams)) (cams : list CameraParameter)
  (imgs : list (list string)).

Lemma trace_ext_put_fs P fs : always (trace_ext P) (put_fs fs).
Proof.
  intros w r w'. unfold put_fs. intros [= _ <-]. exists [].
  split; [|done]. unfold trace_between. simpl. by rewrite app_nil_r.
Qed.

Lemma trace_ext_logger_warning P msg : always (trace_ext P) (logger_warning msg).
Proof.
  intros w r w'. unfold logger_warning. intros [= _ <-]. exists [].
  split; [|done]. unfold trace_between. simpl. by rewrite app_nil_r.
Qed.

Lemma trace_ext_emit P e : P e -> always (trace_ext P) (emit e).
Proof.
  intros He w r w'. unfold emit. intros [= _ <-]. exists [e].
  split; [done|]. by constructor.
Qed.

Lemma trace_ext_weaken P Q w w' :
  (forall e, P e -> Q e) -> trace_ext P w w' -> trace_ext Q w w'.
Proof.
  intros HPQ (t & Ht & HP). exists t. split; [done|].
  eapply Forall_impl; eauto.
Qed.

Hint Resolve trace_ext_put_fs trace_ext_logger_warning : always.
Hint Extern 1 (always (trace_ext _) (emit _)) =>
  apply trace_ext_emit; exact I : always.
Hint Unfold check_path_existence os_mkdir os_makedirs prepare_output_path_dir
  write_file open_append shutil_rmtree glob setup_logger array_to_images
  SMCReader get_kinect_color dump render_video : pipeline.

Local Abbreviation with_fs := (@with_fs Frame Keypoints2D Keypoints3D BodyParams).
Local Abbreviation existence_of := (@existence_of Frame Keypoints2D Keypoints3D BodyParams).
Local Abbreviation check_path_existence := (@check_path_existence Frame Keypoints2D Keypoints3D BodyParams).
Local Abbreviation os_mkdir := (@os_mkdir Frame Keypoints2D Keypoints3D BodyParams).
Local Abbreviation write_file := (@write_file Frame Keypoints2D Keypoints3D BodyParams).
Local Abbreviation open_append := (@open_append Frame Keypoints2D Keypoints3D BodyParams).
Local Abbreviation setup_logger := (@setup_logger Frame Keypoints2D Keypoints3D BodyParams).
Local Abbreviation now := (@now Frame Keypoints2D Keypoints3D BodyParams).
Local Abbreviation ret := (@ret Frame Keypoints2D Keypoints3D BodyParams).
Local Abbreviation raise := (@raise Frame Keypoints2D Keypoints3D BodyParams).
Local Abbreviation shutil_rmtree := (@shutil_rmtree Frame Keypoints2D Keypoints3D BodyParams).
Local Abbreviation prepare_output_path_dir := (@prepare_output_path_dir Frame Keypoints2D Keypoints3D BodyParams).
Local Abbreviation os_makedirs := (@os_makedirs Frame Keypoints2D Keypoints3D BodyParams).
Local Abbreviation glob := (@glob Frame Keypoints2D Keypoints3D BodyParams).
Local Abbreviation dump := (@dump Frame Keypoints2D Keypoints3D BodyParams).
Local Abbreviation render_video := (@render_video Frame Keypoints2D Keypoints3D BodyParams).

Lemma trace_check_paths args :
  always (trace_ext (fun _ : event => False)) (check_paths args).
Proof. unfold check_paths. always_go. Qed.

Lemma trace_load_inputs args :
  always (trace_ext load_event)
    (load_inputs build_estimator get_all_color_kinect_parameter_from_smc args).
Proof. unfold load_inputs. always_go. Qed.

Lemma trace_acquire args smc est :
  always (trace_ext acquire_event) (acquire rgb2bgr args smc est).
Proof. unfold acquire, acquire_view. always_go. Qed.

Lemma trace_estimate args est cams kps imgs :
  always (trace_ext estimate_event) (estimate args est cams kps imgs).
Proof. unfold estimate. always_go. Qed.

Lemma trace_write_results args kps kd sd :
  always (trace_ext dump_event) (write_results args kps kd sd).
Proof. unfold write_results, dump_keypoints2d. always_go. Qed.

Lemma trace_cleanup args : always (trace_ext rmtree_event) (cleanup args).
Proof. unfold cleanup. always_go. Qed.

Lemma trace_visualize_results args smc est cams kd sd st :
  always (trace_ext visualize_event)
    (visualize_results rgb2bgr args smc est cams kd sd st).
Proof.
  unfold visualize_results, visualize_keypoints3d, visualize_smpl. always_go.
Qed.

(** *** The script in stages *)

Local Abbreviation mainX :=
  (main rgb2bgr build_estimator get_all_color_kinect_parameter_from_smc).
Local Abbreviation processX :=
  (process rgb2bgr build_estimator get_all_color_kinect_parameter_from_smc).
Local Abbreviation configureX :=
  (configure build_estimator get_all_color_kinect_parameter_from_smc).
Local Abbreviation load_inputsX :=
  (load_inputs build_estimator get_all_color_kinect_parameter_from_smc).
Local Abbreviation finishX := (finish rgb2bgr).

Lemma main_eq args w : mainX args w = bind (processX args) (finishX args) w.
Proof.
  unfold main, process, configure, finish, bind.
  destruct (check_paths args w) as [[[]|?] w1]; [|done].
  destruct (load_inputsX args w1) as [[[[smc est] cams]|?] w2]; [|done].
  destruct (acquire _ args smc est w2) as [[[kps imgs]|?] w3]; [|done].
  destruct (estimate args est cams kps imgs w3) as [[[[kps' kd] sd]|?] w4];
    [|done].
  destruct (write_results args kps' kd sd w4) as [[st|?] w5]; [|done].
  done.
Qed.

Lemma process_eq args w :
  processX args w
  = bind (configureX args) (fun '(smc, est, cams) =>
      bind (acquire rgb2bgr args smc est) (fun '(kps, imgs) =>
        bind (estimate args est cams kps imgs) (fun '(kps', kd, sd) =>
          bind (write_results args kps' kd sd) (fun st =>
            ret (smc, est, cams, kd, sd, st))))) w.
Proof. reflexivity. Qed.

Lemma for_each_trace {A S} (g : A -> list event) (l : list A)
    (body : S -> A -> M S) acc w r w' :
  (forall s x w r w', body s x w = (Ok r, w') -> trace_between w w' (g x)) ->
  for_each l body acc w = (Ok r, w') ->
  trace_between w w' (mjoin (g <$> l)).
Proof.
  intros Hb. revert acc w. induction l as [|x l IH]; intros acc w.
  - rewrite for_each_nil. intros [= _ <-]. unfold trace_between.
    by rewrite app_nil_r.
  - rewrite for_each_cons. intros (a & w1 & H1 & H2)%bind_Ok.
    apply Hb in H1. apply IH in H2. unfold trace_between in *.
    rewrite H2, H1. rewrite fmap_cons. cbn [mjoin list_join]. by rewrite app_assoc.
Qed.

Lemma always_trace_weaken {A} P Q (m : M A) :
  (forall e, P e -> Q e) -> always (trace_ext P) m -> always (trace_ext Q) m.
Proof.
  intros HPQ. apply always_weaken. intros w w'. by apply trace_ext_weaken.
Qed.

Lemma trace_configure args : always (trace_ext load_event) (configureX args).
Proof.
  unfold configure. apply always_bind; [apply _| |intros _].
  - eapply always_trace_weaken; [|apply trace_check_paths]. done.
  - apply trace_load_inputs.
Qed.

Lemma trace_process args : always (trace_ext process_event) (processX args).
Proof.
  unfold process.
  apply always_bind; [apply _| |intros [[smc est] cams]].
  { eapply always_trace_weaken; [|apply trace_configure].
    unfold process_event. tauto. }
  apply always_bind; [apply _| |intros [kps imgs]].
  { eapply always_trace_weaken; [|apply trace_acquire].
    unfold process_event. tauto. }
  apply always_bind; [apply _| |intros [[kps' kd] sd]].
  { eapply always_trace_weaken; [|apply trace_estimate].
    unfold process_event. tauto. }
  apply always_bind; [apply _| |intros st].
  { eapply always_trace_weaken; [|apply trace_write_results].
    unfold process_event. tauto. }
  apply always_ret. apply _.
Qed.

Lemma process_Ok args w smc est cams kd sd st w' :
  processX args w = (Ok (smc, est, cams, kd, sd, st), w') ->
  exists w1 kps imgs w2 kps' w3,
    configureX args w = (Ok (smc, est, cams), w1)
    /\ acquire rgb2bgr args smc est w1 = (Ok (kps, imgs), w2)
    /\ estimate args est cams kps imgs w2 = (Ok (kps', kd, sd), w3)
    /\ write_results args kps' kd sd w3 = (Ok st, w').
Proof.
  rewrite process_eq.
  intros ([[smc' est'] cams'] & w1 & H1 & H)%bind_Ok.
  apply bind_Ok in H as ([kps imgs] & w2 & H2 & H).
  apply bind_Ok in H as ([[kps' kd'] sd'] & w3 & H3 & H).
  apply bind_Ok in H as (st' & w4 & H4 & H).
  unfold ret in H. simplify_eq. eauto 10.
Qed.

Lemma dump_Ok c path w w' :
  dump c path w = (Ok tt, w') ->
  exists x, c = Some x /\ trace_between w w' [EvDump path x].
Proof.
  destruct c as [x|]; [|done]. unfold dump.
  intros ([] & w1 & H1 & H2)%bind_Ok. exists x. split; [done|].
  assert (w_trace w1 = w_trace w) as Hw.
  { revert H1. unfold write_file, bind, get_fs, put_fs, raise.
    repeat case_match; intros; simplify_eq; done. }
  unfold emit in H2. simplify_eq. unfold trace_between. simpl.
  by rewrite Hw.
Qed.

Lemma write_results_Ok args kps kd sd st w w' :
  write_results args kps kd sd w = (Ok st, w') ->
  is_Some kd /\ is_Some sd /\ st = smpl_type_of sd.
Proof.
  unfold write_results.
  intros ([] & w1 & H1 & H)%bind_Ok.
  apply bind_Ok in H as ([] & w2 & H2 & H).
  apply bind_Ok in H as ([] & w3 & H3 & H).
  unfold ret in H. simplify_eq.
  apply dump_Ok in H2 as (x & Hx & _). apply dump_Ok in H3 as (y & Hy & _).
  destruct kd, sd; simplify_eq/=. eauto.
Qed.

(** *** Projection videos *)

Lemma render_video_Ok e path w w' :
  render_video e path w = (Ok tt, w') -> trace_between w w' [e].
Proof.
  unfold render_video. intros ([] & w1 & H1 & H2)%bind_Ok.
  assert (w_trace w1 = w_trace w) as Hw.
  { revert H1. unfold write_file, bind, get_fs, put_fs, raise.
    repeat case_match; intros; simplify_eq; done. }
  unfold emit in H2. simplify_eq. unfold trace_between. simpl.
  by rewrite Hw.
Qed.

Lemma get_kinect_color_Ok smc k a w w' :
  get_kinect_color smc k w = (Ok a, w') ->
  kinect_color smc !! k = Some a /\ trace_between w w' [EvGetKinectColor k].
Proof.
  unfold get_kinect_color. destruct (kinect_color smc !! k); [|done].
  intros ([] & w1 & H1 & H2)%bind_Ok. unfold emit, ret in *.
  by simplify_eq.
Qed.

Lemma visualize_keypoints3d_Ok args smc (pr : @Projector Keypoints3D ViewKeypoints)
    kps3d w w' :
  visualize_keypoints3d rgb2bgr args smc pr (Some kps3d) w = (Ok tt, w') ->
  trace_between w w'
    ([EvVisualizeKp3d (keypoints3d_video_of args);
      EvProject (length (camera_parameters pr))]
     ++ mjoin ((fun v => [EvGetKinectColor v;
                           EvVisualizeKp2d v (projected_path_of args v)])
                <$> py_range 0 (length (camera_parameters pr)) 3)).
Proof.
  unfold visualize_keypoints3d.
  assert (length (project pr kps3d) = length (camera_parameters pr)) as ->.
  { unfold project. by rewrite length_map. }
  intros ([] & w1 & H1 & H)%bind_Ok.
  apply bind_Ok in H as ([] & w2 & H2 & H).
  apply render_video_Ok in H1.
  eapply for_each_trace in H.
  - unfold emit in H2. simplify_eq. unfold trace_between in *.
    rewrite H. simpl. rewrite H1. by rewrite <- !app_assoc.
  - clear. intros [] v w [] w'. cbv beta.
    destruct (project pr kps3d !! v); [|done].
    intros (a & w1 & H1 & H2)%bind_Ok.
    apply get_kinect_color_Ok in H1 as [_ H1]. apply render_video_Ok in H2.
    unfold trace_between in *. rewrite H2, H1. by rewrite <- app_assoc.
Qed.

Lemma trace_visualize_smpl args smc cams sd st :
  always (trace_ext overlay_event) (visualize_smpl rgb2bgr args smc cams sd st).
Proof. unfold visualize_smpl. always_go. Qed.

Lemma trace_between_app w1 w2 w3 t1 t2 :
  trace_between w1 w2 t1 -> trace_between w2 w3 t2 ->
  trace_between w1 w3 (t1 ++ t2).
Proof. unfold trace_between. intros H1 H2. by rewrite H2, H1, app_assoc. Qed.

Lemma trace_between_inj w w' t1 t2 :
  trace_between w w' t1 -> trace_between w w' t2 -> t1 = t2.
Proof. unfold trace_between. intros H1 H2. rewrite H1 in H2. by simplify_list_eq. Qed.

Lemma main_continue args w smc est cams w1 :
  configureX args w = (Ok (smc, est, cams), w1) ->
  mainX args w = continue rgb2bgr args smc est cams w1.
Proof.
  intros Hc. unfold configure in Hc.
  apply bind_Ok in Hc as ([] & w0 & H0 & H1).
  unfold main. rewrite bind_eq, H0, bind_eq, H1. reflexivity.
Qed.

Lemma trace_visualize_keypoints3d_projection args smc
    (pr : @Projector Keypoints3D ViewKeypoints) kd :
  always (trace_ext (projection_event args (length (camera_parameters pr))))
    (visualize_keypoints3d rgb2bgr args smc pr kd).
Proof.
  unfold visualize_keypoints3d. destruct kd as [kps3d|]; [|always_go].
  assert (length (project pr kps3d) = length (camera_parameters pr)) as ->.
  { unfold project. by rewrite length_map. }
  apply always_bind; [apply _| |intros _].
  { unfold render_video. always_go. }
  apply always_bind; [apply _|by apply trace_ext_emit|intros _].
  apply always_for_each; [apply _|]. intros [] v Hv.
  apply elem_of_py_range in Hv as [Hlt Hmod]; [|lia].
  destruct (_ !! v); [|always_go].
  apply always_bind; [apply _|always_go|intros a].
  unfold render_video. apply always_bind; [apply _|always_go|intros _].
  by apply trace_ext_emit.
Qed.

Lemma trace_continue_projection args smc est cams :
  always (trace_ext (projection_event args
                       (length (camera_parameters (get_projector est cams)))))
    (continue rgb2bgr args smc est cams).
Proof.
  unfold continue.
  apply always_bind; [apply _| |intros [kps imgs]].
  { eapply always_trace_weaken; [|apply trace_acquire]. by intros []. }
  apply always_bind; [apply _| |intros [[kps' kd] sd]].
  { eapply always_trace_weaken; [|apply trace_estimate]. by intros []. }
  apply always_bind; [apply _| |intros st].
  { eapply always_trace_weaken; [|apply trace_write_results]. by intros []. }
  apply always_bind; [apply _| |intros _].
  { eapply always_trace_weaken; [|apply trace_cleanup]. by intros []. }
  unfold visualize_results. destruct (visualize args); [|always_go].
  apply always_bind; [apply _| |intros _].
  - apply trace_visualize_keypoints3d_projection.
  - eapply always_trace_weaken; [|apply trace_visualize_smpl]. by intros [].
Qed.

(** C10: with visualisation on, the projector is run over all the
    cameras of the projector the estimator hands out for the loaded
    cameras, [n_view] of them, yet a projected-overlay video is rendered
    only for the view indices 0, 3, 6, ... below [n_view], each to
    [<smc_name>_projected_<NN>.mp4]; the other views get none.  Whatever
    the run's outcome no other projection and no other such video is made;
    a successful run makes all of these. *)
Theorem projected_video_every_third_view args w smc est cams w1 r w' t :
  visualize args = true ->
  configureX args w = (Ok (smc, est, cams), w1) ->
  mainX args w = (r, w') ->
  trace_between w w' t ->
  let n_view := length (camera_parameters (get_projector est cams)) in
  (forall n, EvProject n ∈ t -> n = n_view)
  /\ (forall v p, EvVisualizeKp2d v p ∈ t ->
        v < n_view /\ v mod 3 = 0 /\ p = projected_path_of args v)
  /\ (r = Ok tt ->
      EvProject n_view ∈ t
      /\ forall v, v < n_view -> v mod 3 = 0 ->
           EvVisualizeKp2d v (projected_path_of args v) ∈ t).
Proof.
  intros Hvis Hc Hmain Ht n_view.
  pose proof (trace_configure _ _ _ _ Hc) as (t0 & Ht0 & HP0).
  rewrite (main_continue _ _ _ _ _ _ Hc) in Hmain.
  pose proof (trace_continue_projection args smc est cams _ _ _ Hmain)
    as (t1 & Ht1 & HP1).
  pose proof (trace_between_app _ _ _ _ _ Ht0 Ht1) as Hall.
  rewrite (trace_between_inj _ _ _ _ Ht Hall).
  rewrite Forall_forall in HP0. rewrite Forall_forall in HP1.
  split; [|split].
  - intros n [H|H]%elem_of_app; [by apply HP0 in H|by apply HP1 in H].
  - intros v p [H|H]%elem_of_app; [by apply HP0 in H|by apply HP1 in H].
  - intros ->. unfold continue in Hmain.
    apply bind_Ok in Hmain as ([kps imgs] & w2 & H2 & Hmain).
    apply bind_Ok in Hmain as ([[kps' kd] sd] & w3 & H3 & Hmain).
    apply bind_Ok in Hmain as (st & w4 & H4 & Hmain).
    apply bind_Ok in Hmain as ([] & w5 & H5 & Hmain).
    pose proof (trace_acquire _ _ _ _ _ _ H2) as (ta & Hta & _).
    pose proof (trace_estimate _ _ _ _ _ _ _ _ H3) as (te & Hte & _).
    pose proof (trace_write_results _ _ _ _ _ _ _ H4) as (tw & Htw & _).
    pose proof (trace_cleanup _ _ _ _ H5) as (tc & Htc & _).
    apply write_results_Ok in H4 as ([kps3d ->] & _ & _).
    unfold visualize_results in Hmain. rewrite Hvis in Hmain.
    apply bind_Ok in Hmain as ([] & w6 & Hk & Hs).
    apply visualize_keypoints3d_Ok in Hk.
    pose proof (trace_visualize_smpl _ _ _ _ _ _ _ _ Hs) as (ts & Hts & _).
    pose proof (trace_between_app _ _ _ _ _ Hta
                  (trace_between_app _ _ _ _ _ Hte
                     (trace_between_app _ _ _ _ _ Htw
                        (trace_between_app _ _ _ _ _ Htc
                           (trace_between_app _ _ _ _ _ Hk Hts))))) as Hsplit.
    rewrite (trace_between_inj _ _ _ _ Ht1 Hsplit). fold n_view.
    split.
    + rewrite !elem_of_app. do 5 right. left. left. right. left.
    + intros v Hlt Hmod. rewrite !elem_of_app. do 5 right. left. right.
      apply list_elem_of_join. eexists. split; [|apply list_elem_of_fmap].
      2:{ exists v. split; [done|]. apply elem_of_py_range; [lia|done]. }
      right. left.
Qed.

(** *** Configuration errors *)

Ltac mrun H :=
  unfold bind, ret, raise, lift, get_fs, put_fs, emit, now, logger_warning in H;
  cbv beta in H.

Ltac case_hyp H :=
  repeat match type of H with
         | context [match ?x with _ => _ end] => destruct x eqn:?
         end.

Lemma isdir_insert_Dir (fs : gmap string (@node Frame Keypoints2D Keypoints3D BodyParams)) p :
  isdir (<[p := Dir]> fs) p = true.
Proof. unfold isdir. rewrite lookup_insert_eq. by rewrite orb_true_r. Qed.

Lemma isdir_insert_File (fs : gmap string (@node Frame Keypoints2D Keypoints3D BodyParams)) p q c :
  isdir fs q = true -> fs !! p <> Some Dir -> isdir (<[p := File c]> fs) q = true.
Proof.
  unfold isdir. intros H Hp. destruct (String.eqb q ""); [done|]. simpl in *.
  destruct (decide (p = q)) as [->|Hne].
  - destruct (fs !! q) as [[]|]; done.
  - by rewrite lookup_insert_ne.
Qed.

Lemma ret_eq {A} (a : A) w : ret a w = (Ok a, w).
Proof. reflexivity. Qed.

Lemma now_eq w : now w = (Ok (w_clock w), w).
Proof. reflexivity. Qed.

Lemma check_path_existence_eq p t w :
  check_path_existence p t w = (Ok (existence_of (w_fs w) p t), w).
Proof. reflexivity. Qed.

Lemma os_mkdir_eq p w :
  os_mkdir p w
  = match w_fs w !! p with
    | Some _ => (Raise FileExistsError, w)
    | None => if isdir (w_fs w) (dirname p)
              then (Ok tt, with_fs w (<[p := Dir]> (w_fs w)))
              else (Raise FileNotFoundError, w)
    end.
Proof.
  unfold os_mkdir, bind, get_fs, put_fs, raise, with_fs.
  destruct (w_fs w !! p); [done|]. by destruct (isdir _ _).
Qed.

Lemma write_file_eq p c w :
  write_file p c w
  = match w_fs w !! p with
    | Some Dir => (Raise IsADirectoryError, w)
    | _ => if isdir (w_fs w) (dirname p)
           then (Ok tt, with_fs w (<[p := File c]> (w_fs w)))
           else (Raise FileNotFoundError, w)
    end.
Proof.
  unfold write_file, bind, get_fs, put_fs, raise, with_fs.
  destruct (w_fs w !! p) as [[|?]|]; try done; by destruct (isdir _ _).
Qed.

Lemma open_append_eq p w :
  open_append p w
  = match w_fs w !! p with
    | Some Dir => (Raise IsADirectoryError, w)
    | Some (File _) => (Ok tt, w)
    | None => if isdir (w_fs w) (dirname p)
              then (Ok tt, with_fs w (<[p := File TextFile]> (w_fs w)))
              else (Raise FileNotFoundError, w)
    end.
Proof.
  unfold open_append, bind, get_fs, put_fs, raise, with_fs.
  destruct (w_fs w !! p) as [[|?]|]; try done; by destruct (isdir _ _).
Qed.

Lemma check_paths_inv args w r w1 :
  check_paths args w = (r, w1) ->
  w_trace w1 = w_trace w /\ w_log w1 = w_log w /\ w_clock w1 = w_clock w
  /\ fs_frame (fun p => p = output_dir args
                        \/ (disable_log_file args = false
                            /\ p = log_path_of args (strftime (w_clock w)))) w w1
  /\ (isdir (w_fs w) (output_dir args) = false ->
      isdir (w_fs w) (dirname (output_dir args)) = false -> w1 = w)
  /\ (isdir (w_fs w) (output_dir args) = true ->
      disable_log_file args = true -> w_fs w1 = w_fs w)
  /\ (r = Ok tt -> isdir (w_fs w1) (output_dir args) = true).
Proof.
  unfold check_paths, check_path_existence, os_mkdir, setup_logger, open_append.
  intros H. mrun H. unfold fs_frame.
  destruct w as [fs lg ck tr]. cbn [w_fs w_log w_clock w_trace] in *.
  destruct (isdir fs (output_dir args)) eqn:Hout.
  - (* the output directory exists *)
    destruct (dir_nonempty fs (output_dir args)); cbn [negb] in H;
    destruct (disable_log_file args); cbn [negb] in H;
    repeat (case_match; simplify_eq; cbn [w_fs w_log w_clock w_trace] in * );
    repeat split; try done; intros;
    try (rewrite lookup_insert_ne by naive_solver; done);
    try (apply isdir_insert_File; [done|congruence]).
  - destruct (isdir fs (dirname (output_dir args))) eqn:Hpar.
    + destruct (fs !! output_dir args) eqn:Hl;
      destruct (disable_log_file args); cbn [negb] in H;
      repeat (case_match; simplify_eq; cbn [w_fs w_log w_clock w_trace] in * );
      repeat split; try done; intros;
      try (rewrite ?lookup_insert_ne by naive_solver; done);
      try apply isdir_insert_Dir;
      try (apply isdir_insert_File; [apply isdir_insert_Dir|congruence]).
    + simplify_eq. repeat split; try done.
Qed.

Lemma has_char_smc_name args : has_char "/" (smc_name_of args) = false.
Proof.
  unfold smc_name_of. apply rsplit_first_no_char, rsplit_last_no_char.
Qed.

Lemma has_char_strftime t : has_char "/" (strftime t) = false.
Proof.
  unfold strftime. rewrite !has_char_app.
  rewrite !has_char_fmt_d by (left; cbv; lia). reflexivity.
Qed.

Lemma component_app_l a b :
  has_char "/" a = false -> component b -> component (a +:+ b).
Proof.
  intros Ha [Hb Hs]. split.
  - destruct a; [done|]. by rewrite str_app_cons.
  - rewrite has_char_app, Ha, Hs. done.
Qed.

Lemma component_log_name args t :
  component (smc_name_of args +:+ "_" +:+ strftime t +:+ ".txt").
Proof.
  apply component_app_l; [apply has_char_smc_name|]. split; [done|].
  rewrite !has_char_app, has_char_strftime. reflexivity.
Qed.

Lemma dirname_log_path args (t : datetime) :
  normal_dir (output_dir args) ->
  dirname (log_path_of args (strftime t)) = output_dir args.
Proof.
  intros Hn. unfold log_path_of.
  apply dirname_path_join; [done|apply component_log_name].
Qed.

Lemma load_inputs_inv args w r w1 :
  load_inputsX args w = (r, w1) ->
  w_fs w1 = w_fs w /\ w_log w1 = w_log w /\ w_clock w1 = w_clock w.
Proof.
  unfold load_inputs, SMCReader. intros H. mrun H.
  destruct w as [fs lg ck tr]. cbn [w_fs w_log w_clock w_trace] in *.
  repeat (case_match; simplify_eq; cbn [w_fs w_log w_clock w_trace] in * );
    done.
Qed.

(** X2: a run whose configuration stage (output directory, logger, input
    file, reader, estimator, cameras) raises stops there, in the world that
    stage left: only reader/estimator/camera-loading calls were made, and
    no path other than the output directory and the log file was touched. *)
Theorem configuration_error_aborts args w e w1 :
  configureX args w = (Raise e, w1) ->
  mainX args w = (Raise e, w1)
  /\ trace_ext load_event w w1
  /\ fs_frame (fun p => p = output_dir args
                        \/ (disable_log_file args = false
                            /\ p = log_path_of args (strftime (w_clock w)))) w w1.
Proof.
  intros H. split; [|split].
  - rewrite main_eq, bind_eq, process_eq, bind_eq, H. done.
  - by eapply trace_configure.
  - unfold configure in H. apply bind_Raise in H as [H|([] & w0 & H0 & H)].
    + by apply check_paths_inv in H as (_ & _ & _ & H & _).
    + apply check_paths_inv in H0 as (_ & _ & _ & H0 & _).
      apply load_inputs_inv in H as (Hfs & _). intros p Hp.
      rewrite Hfs. by apply H0.
Qed.

(** X3: when the output directory, given as a plain path (no [.] or [..]
    component, no doubled or trailing separator), neither exists nor has
    an existing parent directory, the run raises [FileNotFoundError] and
    leaves the world exactly as it was. *)
Theorem missing_output_parent_changes_nothing args w :
  plain_path (output_dir args) = true ->
  isdir (w_fs w) (output_dir args) = false ->
  isdir (w_fs w) (dirname (output_dir args)) = false ->
  mainX args w = (Raise FileNotFoundError, w).
Proof.
  intros _ Hout Hpar.
  destruct (configureX args w) as [r w1] eqn:Hc.
  assert (r = Raise FileNotFoundError /\ w1 = w) as [-> ->].
  { unfold configure, check_paths, check_path_existence in Hc. mrun Hc.
    rewrite Hout, Hpar in Hc. by simplify_eq. }
  by apply configuration_error_aborts in Hc as [? _].
Qed.

(** X4: the logger is set up before the input file is looked at.  With
    file logging on, an output directory that exists or can be made, and
    an input path that is no file, the run raises [FileNotFoundError] only
    after the log file has been opened: it exists afterwards. *)
Theorem log_file_precedes_input_check args w :
  normal_dir (output_dir args) ->
  disable_log_file args = false ->
  isdir (w_fs w) (output_dir args) = true
  \/ (w_fs w !! output_dir args = None
      /\ isdir (w_fs w) (dirname (output_dir args)) = true) ->
  w_fs w !! log_path_of args (strftime (w_clock w)) <> Some Dir ->
  isfile (w_fs w) (smc_path args) = false ->
  smc_path args <> log_path_of args (strftime (w_clock w)) ->
  smc_path args <> output_dir args ->
  exists w',
    mainX args w = (Raise FileNotFoundError, w')
    /\ isfile (w_fs w') (log_path_of args (strftime (w_clock w))) = true
    /\ w_trace w' = w_trace w.
Proof.
  intros Hn Hlog Hout Hnd Hin Hne Hne'.
  pose proof (dirname_log_path args (w_clock w) Hn) as Hdl.
  set (lp := log_path_of args (strftime (w_clock w))) in *.
  assert (lp <> output_dir args) as Hlo.
  { apply dirname_neq_self; [done|apply component_log_name]. }
  (* the world after the output directory has been seen to *)
  assert (exists fs1,
            configureX args w
            = bind (let* _ := setup_logger (Some lp) in
                    let* exist_result := check_path_existence (smc_path args) TFile in
                    if decide (exist_result <> FileExist)
                    then raise FileNotFoundError else ret tt)
                   (fun _ => load_inputsX args) (with_fs w fs1)
            /\ isdir fs1 (output_dir args) = true
            /\ fs1 !! lp = w_fs w !! lp
            /\ isfile fs1 (smc_path args) = false) as (fs1 & Hc & Hd1 & Hl1 & Hs1).
  { assert (isdir (w_fs w) (output_dir args) = true
            \/ (isdir (w_fs w) (output_dir args) = false
                /\ w_fs w !! output_dir args = None
                /\ isdir (w_fs w) (dirname (output_dir args)) = true)) as Hout'.
    { destruct Hout as [?|[Hnone Hpar]]; [by left|].
      destruct (isdir (w_fs w) (output_dir args)); [by left|by right]. }
    clear Hout. destruct Hout' as [Hout|(Hout & Hnone & Hpar)].
    - exists (w_fs w). split; [|done].
      unfold configure, check_paths. rewrite !bind_eq, check_path_existence_eq.
      unfold existence_of. rewrite Hout, Hlog. cbn [negb].
      destruct (dir_nonempty (w_fs w) (output_dir args)); by destruct w.
    - exists (<[output_dir args := Dir]> (w_fs w)).
      split; [|split; [apply isdir_insert_Dir|split]].
      + unfold configure, check_paths.
        rewrite !bind_eq, check_path_existence_eq.
        unfold existence_of. rewrite Hout, Hpar, Hlog. cbn [negb].
        cbv beta iota. rewrite !bind_eq, os_mkdir_eq, Hnone, Hpar.
        reflexivity.
      + by rewrite lookup_insert_ne.
      + unfold isfile in *. by rewrite lookup_insert_ne. }
  rewrite main_eq, bind_eq, process_eq, bind_eq, Hc. clear Hc.
  rewrite !bind_eq. unfold setup_logger. rewrite open_append_eq.
  cbn [with_fs w_fs]. rewrite Hdl, Hd1, Hl1.
  destruct (w_fs w !! lp) as [[|c]|] eqn:El; [done| |].
  - cbv beta iota. rewrite ?bind_eq, check_path_existence_eq.
    unfold existence_of. cbn [with_fs w_fs]. rewrite Hs1.
    eexists. split.
    { destruct (isdir fs1 (dirname (smc_path args))); reflexivity. }
    cbn [with_fs w_fs w_trace]. unfold isfile. by rewrite Hl1.
  - cbv beta iota. rewrite ?bind_eq, check_path_existence_eq.
    unfold existence_of. cbn [with_fs w_fs].
    assert (isfile (<[lp := File TextFile]> fs1) (smc_path args) = false) as ->.
    { unfold isfile in *. by rewrite lookup_insert_ne. }
    eexists. split.
    { destruct (isdir _ (dirname (smc_path args))); reflexivity. }
    cbn [with_fs w_fs w_trace]. unfold isfile. by rewrite lookup_insert_eq.
Qed.

(** *** What a failed set-up leaves behind *)

Local Abbreviation setup_footprint :=
  (@setup_footprint Frame Keypoints2D Keypoints3D BodyParams).

Lemma check_paths_footprint args w r w1 :
  check_paths args w = (r, w1) ->
  setup_footprint args w w1
  /\ (r = Ok tt -> isfile (w_fs w1) (smc_path args) = true).
Proof.
  unfold check_paths, check_path_existence, os_mkdir, setup_logger, open_append.
  intros H. mrun H. unfold setup_footprint.
  destruct w as [fs lg ck tr]. cbn [w_fs w_log w_clock w_trace] in *.
  destruct (isdir fs (output_dir args)) eqn:Hout;
    [|destruct (isdir fs (dirname (output_dir args))) eqn:Hpar;
      [destruct (fs !! output_dir args) eqn:Hl|]];
    destruct (disable_log_file args); cbn [negb] in H;
    repeat (case_match; simplify_eq; cbn [w_fs w_log w_clock w_trace] in * );
    simplify_eq; cbn [w_fs w_log w_clock w_trace] in *;
    (split; [intros p|try done]); try congruence; try (by left).
  all: match goal with
       | |- context [<[?k:=_]> (<[?k2:=_]> _) !! ?q] =>
           destruct (decide (q = k)) as [->|];
           [|destruct (decide (q = k2)) as [->|];
             [|left; by rewrite !lookup_insert_ne]]
       | |- context [<[?k:=_]> _ !! ?q] =>
           destruct (decide (q = k)) as [->|];
           [|left; by rewrite lookup_insert_ne]
       end.
  all: right.
  all: try (destruct (decide (log_path_of args (strftime ck) = output_dir args));
            simplify_map_eq; naive_solver).
  all: assert (log_path_of args (strftime ck) <> output_dir args) as Hne
         by (intros Heq; rewrite Heq, lookup_insert_eq in H; done).
  all: rewrite lookup_insert_ne in H by done.
  all: first [right; by rewrite lookup_insert_eq
             |left; by rewrite lookup_insert_ne, lookup_insert_eq by done].
Qed.


(** *** Nothing is removed outside the temporary strategy *)

Lemma fs_grows_insert_Dir w p :
  w_fs w !! p = None -> fs_grows w (with_fs w (<[p := Dir]> (w_fs w))).
Proof.
  intros Hp q. unfold isfile. cbn [with_fs w_fs].
  destruct (decide (p = q)) as [<-|Hne].
  - rewrite Hp. split; intros; done.
  - rewrite lookup_insert_ne by done. done.
Qed.

Lemma fs_grows_insert_File w p c :
  w_fs w !! p <> Some Dir -> fs_grows w (with_fs w (<[p := File c]> (w_fs w))).
Proof.
  intros Hp q. unfold isfile. cbn [with_fs w_fs].
  destruct (decide (p = q)) as [<-|Hne].
  - rewrite lookup_insert_eq. split; intros; done.
  - rewrite lookup_insert_ne by done. done.
Qed.

Lemma fs_grows_os_mkdir p : always fs_grows (os_mkdir p).
Proof.
  intros w r w'. rewrite os_mkdir_eq.
  destruct (w_fs w !! p) eqn:E; [intros [= _ <-]; reflexivity|].
  destruct (isdir _ _); intros [= _ <-]; [|reflexivity].
  by apply fs_grows_insert_Dir.
Qed.

Lemma fs_grows_write_file p c : always fs_grows (write_file p c).
Proof.
  intros w r w'. rewrite write_file_eq.
  destruct (w_fs w !! p) as [[|c']|] eqn:E;
    [intros [= _ <-]; reflexivity|..];
    (destruct (isdir _ _); intros [= _ <-]; [|reflexivity]);
    apply fs_grows_insert_File; by rewrite E.
Qed.

Lemma fs_grows_open_append p : always fs_grows (open_append p).
Proof.
  intros w r w'. rewrite open_append_eq.
  destruct (w_fs w !! p) as [[|c']|] eqn:E;
    [intros [= _ <-]; reflexivity..|].
  destruct (isdir _ _); intros [= _ <-]; [|reflexivity].
  apply fs_grows_insert_File; by rewrite E.
Qed.

Lemma fs_grows_os_makedirs p : always fs_grows (os_makedirs p).
Proof.
  unfold os_makedirs. apply always_for_each; [apply _|]. intros [] d _ w r w'.
  unfold bind, get_fs, put_fs, ret, raise.
  destruct (w_fs w !! d) as [[|c']|] eqn:E; intros [= _ <-]; try reflexivity.
  by apply (fs_grows_insert_Dir w).
Qed.

Lemma fs_grows_emit e : always fs_grows (emit e).
Proof. intros w r w'. unfold emit. by intros [= _ <-]. Qed.

Lemma fs_grows_logger_warning msg : always fs_grows (logger_warning msg).
Proof. intros w r w'. unfold logger_warning. by intros [= _ <-]. Qed.

Hint Resolve fs_grows_os_mkdir fs_grows_write_file fs_grows_open_append
  fs_grows_os_makedirs fs_grows_emit fs_grows_logger_warning : always.

Lemma fs_grows_process args : always fs_grows (processX args).
Proof.
  unfold process, configure, check_paths, load_inputs, acquire, acquire_view,
    estimate, write_results, dump_keypoints2d.
  always_go.
Qed.

Lemma fs_grows_visualize_results args smc est cams kd sd st :
  always fs_grows (visualize_results rgb2bgr args smc est cams kd sd st).
Proof.
  unfold visualize_results, visualize_keypoints3d, visualize_smpl. always_go.
Qed.

(** X5: unless the temporary strategy was chosen, a run never removes
    anything, whatever its outcome: every directory it found is still a
    directory, every file still a file, and [shutil.rmtree] is not called. *)
Theorem nothing_removed_unless_temp args w r w' :
  frame_file args <> FrameTemp ->
  mainX args w = (r, w') ->
  fs_grows w w' /\ trace_ext (fun e => ~ rmtree_event e) w w'.
Proof.
  intros Hff. rewrite main_eq. revert w r w'.
  change (always (fun w w' => fs_grows w w'
                    /\ trace_ext (fun e => ~ rmtree_event e) w w')
            (bind (processX args) (finishX args))).
  assert (forall A (m : M A) P, always fs_grows m -> always (trace_ext P) m ->
            (forall e, P e -> ~ rmtree_event e) ->
            always (fun w w' => fs_grows w w'
                      /\ trace_ext (fun e => ~ rmtree_event e) w w') m) as Hboth.
  { intros A m P H1 H2 HP w r w' H. split; [by eapply H1|].
    eapply trace_ext_weaken; [exact HP|by eapply H2]. }
  assert (PreOrder (fun w w' : world => fs_grows w w'
                      /\ trace_ext (fun e => ~ rmtree_event e) w w')) as Hpre.
  { split.
    - intros w. split; reflexivity.
    - intros w1 w2 w3 [? ?] [? ?]. split; etrans; done. }
  apply always_bind; [done| |].
  - eapply Hboth; [apply fs_grows_process|apply trace_process|].
    intros [] H; simpl; unfold process_event in H; simpl in H; tauto.
  - intros [[[[[smc est] cams] kd] sd] st]. unfold finish.
    apply always_bind; [done| |intros _].
    + unfold cleanup. destruct (decide (frame_file args = FrameTemp)); [done|].
      apply always_ret. done.
    + eapply Hboth;
        [apply fs_grows_visualize_results|apply trace_visualize_results|].
      intros [] H; simpl in *; tauto.
Qed.

(** *** The camera of the overlay *)

Lemma inverse_extrinsic_flag c c' :
  inverse_extrinsic c = Some c' -> world2cam c' = negb (world2cam c).
Proof.
  unfold inverse_extrinsic. destruct (Qeq_bool _ _); [done|].
  by intros [= <-].
Qed.

Lemma always_bind_ret {A B} R (a : A) (k : A -> M B) :
  always R (k a) -> always R (bind (ret a) k).
Proof. intros Hk w r w'. rewrite bind_eq, ret_eq. apply Hk. Qed.

Lemma trace_visualize_smpl_flag args smc cams sd st :
  always (trace_ext overlay_cam2world)
    (visualize_smpl rgb2bgr args smc cams sd st).
Proof.
  unfold visualize_smpl. destruct sd as [s|]; [|always_go].
  destruct (cams !! 1) as [c|]; [|always_go].
  assert (forall c', world2cam c' = false ->
            always (trace_ext overlay_cam2world)
              (bind (ret c') (fun cam_param =>
                 bind (get_kinect_color smc 1) (fun image_array =>
                   render_video
                     (EvVisualizeSmplCalibration cam_param
                        (overlay_path_of args st))
                     (overlay_path_of args st))))) as Hc.
  { intros c' Hc'. apply always_bind_ret.
    apply always_bind; [apply _|always_go|intros a].
    unfold render_video. apply always_bind; [apply _|always_go|intros _].
    by apply trace_ext_emit. }
  destruct (world2cam c) eqn:Hw.
  - destruct (inverse_extrinsic c) as [c'|] eqn:Hi.
    + apply Hc. apply inverse_extrinsic_flag in Hi. by rewrite Hi, Hw.
    + intros w r w'. rewrite bind_eq. unfold raise. intros [= _ <-].
      reflexivity.
  - by apply Hc.
Qed.

(** X6: whatever cameras were loaded, the camera handed to
    [visualize_smpl_calibration] never has the world-to-camera flag set:
    camera 1 is inverted first when it is flagged. *)
Theorem overlay_camera_is_cam2world args w r w' t :
  mainX args w = (r, w') ->
  trace_between w w' t ->
  forall cam p, EvVisualizeSmplCalibration cam p ∈ t -> world2cam cam = false.
Proof.
  intros Hmain Ht cam p Hin.
  assert (always (trace_ext overlay_cam2world) (mainX args)) as Hall.
  { intros w0 r0 w0'. rewrite main_eq. revert w0 r0 w0'.
    apply always_bind; [apply _| |].
    - eapply always_trace_weaken; [|apply trace_process].
      intros [] H; simpl; unfold process_event in H; simpl in H; tauto.
    - intros [[[[[smc est] cams] kd] sd] st]. unfold finish.
      apply always_bind; [apply _| |intros _].
      + eapply always_trace_weaken; [|apply trace_cleanup].
        intros []; simpl; tauto.
      + unfold visualize_results. destruct (visualize args); [|always_go].
        apply always_bind; [apply _| |intros _].
        * unfold visualize_keypoints3d. always_go.
        * apply trace_visualize_smpl_flag. }
  apply Hall in Hmain as (t' & Ht' & HP).
  rewrite (trace_between_inj _ _ _ _ Ht Ht') in Hin.
  rewrite Forall_forall in HP. by apply HP in Hin.
Qed.

(** *** Where the paths of a run lie *)

Lemma str_app_inj_r (a b c : string) : a +:+ c = b +:+ c -> a = b.
Proof.
  revert b. induction a as [|x a IH]; intros [|y b] H.
  - done.
  - apply (f_equal String.length) in H. rewrite !str_app_length in H.
    cbn [String.length] in H. lia.
  - apply (f_equal String.length) in H. rewrite !str_app_length in H.
    cbn [String.length] in H. lia.
  - rewrite !str_app_cons in H. injection H as -> H. f_equal. by apply IH.
Qed.

Lemma component_fmt_d_between pre (width n : nat) post :
  has_char "/" pre = false -> has_char "/" post = false ->
  component (pre +:+ fmt_d width n +:+ post).
Proof.
  intros Hpre Hpost. split.
  - pose proof (fmt_d_nonempty width n) as Hne.
    destruct pre; [|by rewrite str_app_cons].
    rewrite str_app_nil.
    destruct (fmt_d width n); [done|by rewrite str_app_cons].
  - rewrite !has_char_app, Hpre, Hpost, has_char_fmt_d by (left; cbv; lia).
    done.
Qed.

Lemma component_temp_frames args : component (smc_name_of args +:+ "_temp_frames").
Proof. apply component_app_l; [apply has_char_smc_name|done]. Qed.

Lemma component_view k : component ("view_" +:+ fmt_d 2 k).
Proof.
  pose proof (component_fmt_d_between "view_" 2 k "" eq_refl eq_refl) as H.
  replace (fmt_d 2 k +:+ "") with (fmt_d 2 k) in H; [done|].
  generalize (fmt_d 2 k). intros s. induction s as [|x s IH]; [done|].
  rewrite str_app_cons. by rewrite <- IH.
Qed.

Lemma component_keypoints2d_name args i :
  component (smc_name_of args +:+ "_keypoints2d_" +:+ "view"
             +:+ fmt_d 2 i +:+ ".npz").
Proof.
  apply component_app_l; [apply has_char_smc_name|].
  by apply (component_fmt_d_between "_keypoints2d_view" 2 i ".npz").
Qed.

Lemma component_projected_name args v :
  component (smc_name_of args +:+ "_projected" +:+ "_" +:+ fmt_d 2 v +:+ ".mp4").
Proof.
  apply component_app_l; [apply has_char_smc_name|].
  by apply (component_fmt_d_between "_projected_" 2 v ".mp4").
Qed.

Lemma normal_frame_temp_dir args :
  normal_dir (output_dir args) -> normal_dir (frame_temp_dir_of args).
Proof.
  intros Hn. apply normal_dir_path_join; [done|apply component_temp_frames].
Qed.

Lemma normal_view_temp_dir args k :
  normal_dir (output_dir args) -> normal_dir (view_temp_dir_of args k).
Proof.
  intros Hn. apply normal_dir_path_join;
    [by apply normal_frame_temp_dir|apply component_view].
Qed.

(** X7: distinct view indices never share a frame directory, a 2D-keypoint
    artifact or a projection video, also beyond index 99 where the
    two-digit padding no longer pads. *)
Theorem view_paths_distinct args i j :
  normal_dir (output_dir args) ->
  i <> j ->
  view_temp_dir_of args i <> view_temp_dir_of args j
  /\ keypoints2d_path_of args i <> keypoints2d_path_of args j
  /\ projected_path_of args i <> projected_path_of args j.
Proof.
  intros Hn Hij. repeat split; intros H; apply Hij.
  - unfold view_temp_dir_of in H.
    apply path_join_inj in H;
      [|by apply normal_frame_temp_dir|apply component_view..].
    apply (inj (String.app "view_")) in H. by apply fmt_d_inj in H.
  - unfold keypoints2d_path_of in H.
    apply path_join_inj in H; [|done|apply component_keypoints2d_name..].
    apply (inj (String.app (smc_name_of args))) in H.
    apply (inj (String.app "_keypoints2d_")) in H.
    apply (inj (String.app "view")) in H.
    apply str_app_inj_r in H. by apply fmt_d_inj in H.
  - unfold projected_path_of in H.
    apply path_join_inj in H; [|done|apply component_projected_name..].
    apply (inj (String.app (smc_name_of args))) in H.
    apply (inj (String.app "_projected")) in H.
    apply (inj (String.app "_")) in H.
    apply str_app_inj_r in H. by apply fmt_d_inj in H.
Qed.

(** X8: whatever the input path looks like, the capture name has no
    separator, so every artifact lies directly in the output directory and
    every view's frame directory directly in [<smc_name>_temp_frames]. *)
Theorem artifacts_lie_in_output_dir args i :
  normal_dir (output_dir args) ->
  dirname (keypoints2d_path_of args i) = output_dir args
  /\ dirname (keypoints3d_path_of args) = output_dir args
  /\ dirname (smpl_path_of args "smpl") = output_dir args
  /\ dirname (smpl_path_of args "smplx") = output_dir args
  /\ dirname (projected_path_of args i) = output_dir args
  /\ dirname (frame_temp_dir_of args) = output_dir args
  /\ dirname (view_temp_dir_of args i) = frame_temp_dir_of args.
Proof.
  intros Hn. repeat split.
  - apply dirname_path_join; [done|apply component_keypoints2d_name].
  - apply dirname_path_join; [done|].
    apply component_app_l; [apply has_char_smc_name|done].
  - apply dirname_path_join; [done|].
    apply component_app_l; [apply has_char_smc_name|done].
  - apply dirname_path_join; [done|].
    apply component_app_l; [apply has_char_smc_name|done].
  - apply dirname_path_join; [done|apply component_projected_name].
  - apply dirname_path_join; [done|apply component_temp_frames].
  - apply dirname_path_join;
      [by apply normal_frame_temp_dir|apply component_view].
Qed.

(** *** The frame lists of the batch estimator *)

Lemma ascii_compare_refl c : Ascii.compare c c = Eq.
Proof. unfold Ascii.compare. apply N.compare_refl. Qed.

Lemma str_leb_app_prefix (x a b : string) :
  String.leb (x +:+ a) (x +:+ b) = String.leb a b.
Proof.
  unfold String.leb. induction x as [|c x IH]; [done|].
  rewrite !str_app_cons. cbn [String.compare].
  by rewrite ascii_compare_refl.
Qed.

Lemma split_at_dirname p :
  dirname p <> "" -> p = dirname p +:+ String "/" (basename p).
Proof.
  unfold dirname, basename, rsplit_last.
  destruct (rsplit1 "/" p) as [[h t]|] eqn:E; [|done].
  intros _. by apply rsplit1_Some in E as [-> _].
Qed.

Lemma le_basename p q :
  dirname p <> "" -> dirname q = dirname p ->
  String.le p q -> String.le (basename p) (basename q).
Proof.
  intros Hp Hq. unfold String.le.
  rewrite (split_at_dirname p) at 1 by done.
  rewrite (split_at_dirname q) at 1 by (by rewrite Hq).
  rewrite Hq, str_leb_app_prefix.
  change (String "/" (basename p)) with ("/" +:+ basename p).
  change (String "/" (basename q)) with ("/" +:+ basename q).
  by rewrite str_leb_app_prefix.
Qed.

Lemma StronglySorted_impl_Forall {A} (R R' : relation A) (P : A -> Prop) l :
  Forall P l -> (forall x y, P x -> P y -> R x y -> R' x y) ->
  StronglySorted R l -> StronglySorted R' l.
Proof.
  intros HP HR HS. induction HS as [|x l HS IH Hx]; [constructor|].
  apply Forall_cons in HP as [Px Pl]. constructor; [by apply IH|].
  rewrite Forall_forall in *. intros y Hy. apply HR; auto.
Qed.

Lemma normal_dir_path_join_any a b : component b -> normal_dir (path_join a b).
Proof.
  intros [Hb Hs]. unfold normal_dir, path_join.
  rewrite (has_char_startswith _ _ Hs).
  assert (endswith_char "/" b = false) as Hend by by apply has_char_endswith.
  destruct (String.eqb a "" || endswith_char "/" a).
  - by rewrite endswith_char_app.
  - rewrite endswith_char_app; [|by destruct b].
    change ("/" +:+ b) with (String "/" b). cbn [endswith_char].
    by destruct b.
Qed.

Lemma path_join_nonempty_any a b : component b -> path_join a b <> "".
Proof.
  intros [Hb Hs]. unfold path_join. rewrite (has_char_startswith _ _ Hs).
  destruct (String.eqb a "" || endswith_char "/" a).
  - destruct a; [by rewrite str_app_nil|by rewrite str_app_cons].
  - destruct a; [done|by rewrite str_app_cons].
Qed.

Lemma has_char_rsplit_last c d s :
  has_char c s = false -> has_char c (rsplit_last d s) = false.
Proof.
  unfold rsplit_last. destruct (rsplit1 d s) as [[h t]|] eqn:E; [|done].
  apply rsplit1_Some in E as [-> _]. rewrite has_char_app. cbn [has_char].
  by intros [_ [_ ?]%orb_false_iff]%orb_false_iff.
Qed.

Lemma has_magic_false s :
  has_magic s = false
  <-> has_char "*" s = false /\ has_char "?" s = false /\ has_char "[" s = false.
Proof. unfold has_magic. rewrite !orb_false_iff. tauto. Qed.

Lemma has_magic_app a b :
  has_magic a = false -> has_magic b = false -> has_magic (a +:+ b) = false.
Proof.
  rewrite !has_magic_false, !has_char_app.
  intros (-> & -> & ->) (-> & -> & ->). done.
Qed.

Lemma has_magic_path_join a b :
  has_magic a = false -> has_magic b = false ->
  has_magic (path_join a b) = false.
Proof.
  intros Ha Hb. unfold path_join. destruct (startswith_char "/" b); [done|].
  destruct (_ || _); repeat apply has_magic_app; done.
Qed.

Lemma has_magic_smc_name args :
  has_magic (smc_path args) = false -> has_magic (smc_name_of args) = false.
Proof.
  rewrite !has_magic_false. unfold smc_name_of. intros (? & ? & ?).
  repeat split; by apply rsplit_first_no_char, has_char_rsplit_last.
Qed.

(** Without wildcard characters in the output directory and the input
    path, the pattern the script globs has a literal directory part. *)
Lemma view_temp_dir_literal args k :
  has_magic (output_dir args) = false -> has_magic (smc_path args) = false ->
  has_magic (view_temp_dir_of args k) = false.
Proof.
  intros Ho Hs. unfold view_temp_dir_of, frame_temp_dir_of.
  repeat apply has_magic_path_join; [done| |].
  - apply has_magic_app; [by apply has_magic_smc_name|done].
  - apply has_magic_app; [done|].
    apply has_magic_false.
    rewrite !has_char_fmt_d by (cbv; lia). done.
Qed.

Lemma glob_png_Ok d found w w' :
  has_magic d = false -> normal_dir d -> d <> "" ->
  glob (path_join d "*.png") w = (Ok found, w') ->
  w' = w /\ Forall (fun q => dirname q = d) found.
Proof.
  intros _ Hd Hne. unfold glob, bind, get_fs, ret.
  assert (component "*.png") as Hc by done.
  rewrite basename_path_join, dirname_path_join by done.
  intros [= <- <-]. split; [done|].
  apply Forall_forall. intros q Hq.
  by apply list_elem_of_filter in Hq as [(? & _) _].
Qed.

Lemma frame_list_sorted_sorted d found :
  d <> "" -> Forall (fun q => dirname q = d) found ->
  frame_list_sorted (sorted found).
Proof.
  intros Hne Hd. unfold frame_list_sorted, sorted.
  assert (StronglySorted String.le (merge_sort String.le found)) as HS
    by apply (StronglySorted_merge_sort _).
  split; [done|].
  eapply (StronglySorted_impl_Forall _ _ (fun q => dirname q = d)); [| |done].
  - by rewrite merge_sort_Permutation.
  - intros x y Hx Hy. apply le_basename; congruence.
Qed.

Lemma acquire_view_lists args smc est kps imgs k kps' imgs' w w' :
  has_magic (output_dir args) = false -> has_magic (smc_path args) = false ->
  acquire_view rgb2bgr args smc est (kps, imgs) k w = (Ok (kps', imgs'), w') ->
  Forall frame_list_sorted imgs -> Forall frame_list_sorted imgs'.
Proof.
  intros Ho Hs. unfold acquire_view. destruct (decide (frame_file args = FrameNone)).
  - intros (a & w1 & _ & H)%bind_Ok.
    apply bind_Ok in H as (b & w2 & _ & H). unfold ret in H. by simplify_eq.
  - intros (a & w1 & _ & H)%bind_Ok.
    apply bind_Ok in H as ([] & w2 & _ & H).
    apply bind_Ok in H as (found & w3 & Hg & H). unfold ret in H.
    simplify_eq. intros Himgs. apply Forall_app. split; [done|].
    apply Forall_singleton.
    assert (view_temp_dir_of args k <> "") as Hne.
    { apply path_join_nonempty_any, component_view. }
    apply glob_png_Ok in Hg as [_ Hg];
      [|by apply view_temp_dir_literal
       |apply normal_dir_path_join_any, component_view|done].
    by eapply frame_list_sorted_sorted.
Qed.

Lemma for_each_acc {A S} (Q : S -> Prop) (l : list A) (body : S -> A -> M S)
    acc acc' w w' :
  (forall s x s' w w', Q s -> body s x w = (Ok s', w') -> Q s') ->
  Q acc -> for_each l body acc w = (Ok acc', w') -> Q acc'.
Proof.
  intros Hb. revert acc w. induction l as [|x l IH]; intros acc w HQ.
  - rewrite for_each_nil. by intros [= <- _].
  - rewrite for_each_cons. intros (s & w1 & H1 & H2)%bind_Ok.
    eapply IH; [|done]. by eapply Hb.
Qed.

Lemma acquire_lists args smc est kps imgs w w' :
  has_magic (output_dir args) = false -> has_magic (smc_path args) = false ->
  acquire rgb2bgr args smc est w = (Ok (kps, imgs), w') ->
  Forall frame_list_sorted imgs.
Proof.
  intros Ho Hs. unfold acquire. intros ([] & w1 & _ & H)%bind_Ok.
  eapply (for_each_acc (fun acc => Forall frame_list_sorted acc.2)) in H;
    [done| |done].
  intros [kps0 imgs0] k [kps1 imgs1] w0 w0'. simpl.
  intros HQ Hv. by eapply (acquire_view_lists _ _ _ _ _ _ _ _ _ _ Ho Hs).
Qed.

Lemma always_bind_post {A B} (R : relation world) `{!PreOrder R}
    (Q : A -> Prop) (m : M A) (k : A -> M B) :
  always R m -> (forall w a w', m w = (Ok a, w') -> Q a) ->
  (forall a, Q a -> always R (k a)) -> always R (bind m k).
Proof.
  intros Hm HQ Hk w r w'. rewrite bind_eq.
  destruct (m w) as [[a|e] w1] eqn:E.
  - intros H. etrans; [by eapply Hm|]. eapply Hk; [by eapply HQ|done].
  - intros [= _ <-]. by eapply Hm.
Qed.

(** X9: when neither the output directory nor the input path holds one
    of glob's wildcard characters [*], [?], [[], then, whatever a run's
    outcome, every per-view list of frame paths it hands to the batch
    estimator is sorted, by path and, the paths of one list lying in one
    directory, by file name. *)
Theorem run_gets_sorted_lists args w r w' t :
  has_magic (output_dir args) = false ->
  has_magic (smc_path args) = false ->
  mainX args w = (r, w') ->
  trace_between w w' t ->
  forall cams imgs, EvRun cams imgs ∈ t -> Forall frame_list_sorted imgs.
Proof.
  intros Ho Hs Hmain Ht cams imgs Hin.
  assert (always (trace_ext run_lists_sorted) (mainX args)) as Hall.
  { intros w0 r0 w0'. rewrite main_eq. revert w0 r0 w0'.
    apply always_bind; [apply _| |].
    - unfold process.
      apply always_bind; [apply _| |intros [[smc est] cams0]].
      { eapply always_trace_weaken; [|apply trace_configure].
        by intros []. }
      eapply (always_bind_post _ (fun a => Forall frame_list_sorted a.2)).
      { eapply always_trace_weaken; [|apply trace_acquire]. by intros []. }
      { intros w0 [kps0 imgs0] w0' H. by eapply (acquire_lists _ _ _ _ _ _ _ Ho Hs). }
      intros [kps0 imgs0] Hl. simpl in Hl.
      apply always_bind; [apply _| |intros [[kps1 kd] sd]].
      { unfold estimate. destruct (decide (frame_file args <> FrameNone)).
        - apply always_bind; [apply _|by apply trace_ext_emit|intros _].
          always_go.
        - always_go. }
      apply always_bind; [apply _| |intros st; always_go].
      eapply always_trace_weaken; [|apply trace_write_results]. by intros [].
    - intros [[[[[smc est] cams0] kd] sd] st]. unfold finish.
      apply always_bind; [apply _| |intros _].
      + eapply always_trace_weaken; [|apply trace_cleanup]. by intros [].
      + eapply always_trace_weaken; [|apply trace_visualize_results].
        by intros []. }
  apply Hall in Hmain as (t' & Ht' & HP).
  rewrite (trace_between_inj _ _ _ _ Ht Ht') in Hin.
  rewrite Forall_forall in HP. by apply HP in Hin.
Qed.

(** *** Reuse of a populated view directory *)

Local Abbreviation grows_and := (@grows_and Frame Keypoints2D Keypoints3D BodyParams).
Local Abbreviation populated := (@populated Frame Keypoints2D Keypoints3D BodyParams).
Local Abbreviation always_from := (@always_from Frame Keypoints2D Keypoints3D BodyParams).

Hint Extern 2 (always (trace_ext _) (emit _)) =>
  apply trace_ext_emit; simpl; done : always.

Lemma grows_and_preorder P : PreOrder (grows_and P).
Proof.
  split.
  - intros w. split; reflexivity.
  - intros w1 w2 w3 [? ?] [? ?]. split; etrans; done.
Qed.

Lemma always_grows_and {A} P (m : M A) :
  always fs_grows m -> always (trace_ext P) m -> always (grows_and P) m.
Proof. intros H1 H2 w r w' H. split; [by eapply H1|by eapply H2]. Qed.

Lemma populated_grows p w w' : fs_grows w w' -> populated p w -> populated p w'.
Proof.
  intros Hg [Hd Hn]. split.
  - unfold isdir in *. destruct (String.eqb p ""); [done|]. simpl in *.
    destruct (w_fs w !! p) as [[|c]|] eqn:E; try done.
    by rewrite (proj1 (Hg p) E).
  - unfold dir_nonempty in *. apply bool_decide_eq_true in Hn.
    apply bool_decide_eq_true.
    apply map_Exists_lookup in Hn as (q & n & Hq & Hdq).
    destruct n as [|c].
    + apply (map_Exists_lookup_2 _ _ q Dir); [|done]. by apply (Hg q).
    + assert (isfile (w_fs w') q = true) as Hf.
      { apply (Hg q). unfold isfile. by rewrite Hq. }
      unfold isfile in Hf. destruct (w_fs w' !! q) as [[|c']|] eqn:E; try done.
      by apply (map_Exists_lookup_2 _ _ q (File c')).
Qed.

Lemma always_from_always {A} I R (m : M A) : always R m -> always_from I R m.
Proof. intros Hm w r w' _. apply Hm. Qed.

Lemma always_from_bind {A B} I R `{!PreOrder R} (m : M A) (k : A -> M B) :
  (forall w w', R w w' -> I w -> I w') ->
  always_from I R m -> (forall a, always_from I R (k a)) ->
  always_from I R (bind m k).
Proof.
  intros HI Hm Hk w r w' Hw. rewrite bind_eq.
  destruct (m w) as [[a|e] w1] eqn:E.
  - intros H. pose proof (Hm _ _ _ Hw E) as H1.
    etrans; [done|]. eapply Hk; [|done]. by eapply HI.
  - intros [= _ <-]. by eapply Hm.
Qed.

Lemma always_from_for_each {A S} I R `{!PreOrder R} (l : list A)
    (body : S -> A -> M S) acc :
  (forall w w', R w w' -> I w -> I w') ->
  (forall s x, always_from I R (body s x)) ->
  always_from I R (for_each l body acc).
Proof.
  intros HI Hb. revert acc. induction l as [|x l IH]; intros acc.
  - apply always_from_always, always_ret. done.
  - rewrite for_each_cons. apply always_from_bind; auto.
Qed.

Lemma fs_grows_acquire_view args smc est acc j :
  always fs_grows (acquire_view rgb2bgr args smc est acc j).
Proof. unfold acquire_view. always_go. Qed.

Lemma fs_grows_configure args : always fs_grows (configureX args).
Proof. unfold configure, check_paths, load_inputs. always_go. Qed.

Lemma fs_grows_estimate args est cams kps imgs :
  always fs_grows (estimate args est cams kps imgs).
Proof. unfold estimate. always_go. Qed.

Lemma fs_grows_write_results args kps kd sd :
  always fs_grows (write_results args kps kd sd).
Proof. unfold write_results, dump_keypoints2d. always_go. Qed.

Lemma acquire_view_other args smc est acc j k :
  j <> k ->
  always (grows_and (not_materialized k))
    (acquire_view rgb2bgr args smc est acc j).
Proof.
  intros Hjk. apply always_grows_and; [apply fs_grows_acquire_view|].
  unfold acquire_view. always_go.
Qed.

Lemma acquire_view_populated args smc est acc k :
  frame_file args = FrameKeep ->
  always_from (populated (view_temp_dir_of args k))
    (grows_and (not_materialized k))
    (acquire_view rgb2bgr args smc est acc k).
Proof.
  intros Hkeep w r w' [Hd Hn]. destruct acc as [kps imgs].
  unfold acquire_view. rewrite Hkeep.
  destruct (decide (FrameKeep = FrameNone)) as [|_]; [done|].
  rewrite bind_eq, check_path_existence_eq. unfold existence_of.
  rewrite Hd, Hn. cbv beta iota.
  rewrite (bool_decide_eq_true_2 (FrameKeep = FrameKeep)) by done.
  rewrite (bool_decide_eq_true_2
             (DirectoryExistNotEmpty = DirectoryExistNotEmpty)) by done.
  cbn [negb andb]. unfold bind, ret, glob, get_fs.
  intros [= _ <-]. apply (grows_and_preorder _).
Qed.

(** X10: under the persistent strategy, a view whose frame directory is
    a non-empty directory when the run starts is never written out again,
    whatever the run's outcome: [array_to_images] is not called for it. *)
Theorem keep_skips_populated_view args w r w' t k :
  frame_file args = FrameKeep ->
  populated (view_temp_dir_of args k) w ->
  mainX args w = (r, w') ->
  trace_between w w' t ->
  forall d, EvArrayToImages k d ∉ t.
Proof.
  intros Hkeep Hpop Hmain Ht d Hin.
  pose proof (grows_and_preorder (not_materialized k)) as Hpre.
  assert (forall w w', grows_and (not_materialized k) w w' ->
            populated (view_temp_dir_of args k) w ->
            populated (view_temp_dir_of args k) w') as HI.
  { intros w0 w0' [Hg _]. by apply populated_grows. }
  assert (always_from (populated (view_temp_dir_of args k))
            (grows_and (not_materialized k)) (mainX args)) as Hall.
  { intros w0 r0 w0'. rewrite main_eq. revert w0 r0 w0'.
    apply always_from_bind; [done|done| |].
    - unfold process.
      apply always_from_bind; [done|done| |intros [[smc est] cams]].
      { apply always_from_always, always_grows_and;
          [apply fs_grows_configure|].
        eapply always_trace_weaken; [|apply trace_configure]. by intros []. }
      apply always_from_bind; [done|done| |intros [kps imgs]].
      { unfold acquire. apply always_from_bind; [done|done| |intros _].
        - apply always_from_always, always_grows_and; always_go.
        - apply always_from_for_each; [done|done|]. intros acc j.
          destruct (decide (j = k)) as [->|Hne].
          + by apply acquire_view_populated.
          + by apply always_from_always, acquire_view_other. }
      apply always_from_bind; [done|done| |intros [[kps' kd] sd]].
      { apply always_from_always, always_grows_and;
          [apply fs_grows_estimate|].
        eapply always_trace_weaken; [|apply trace_estimate]. by intros []. }
      apply always_from_bind; [done|done| |intros st].
      { apply always_from_always, always_grows_and;
          [apply fs_grows_write_results|].
        eapply always_trace_weaken; [|apply trace_write_results].
        by intros []. }
      apply always_from_always, always_ret. done.
    - intros [[[[[smc est] cams] kd] sd] st]. unfold finish.
      apply always_from_bind; [done|done| |intros _].
      + unfold cleanup. rewrite Hkeep.
        destruct (decide (FrameKeep = FrameTemp)); [done|].
        apply always_from_always, always_ret. done.
      + apply always_from_always, always_grows_and;
          [apply fs_grows_visualize_results|].
        eapply always_trace_weaken; [|apply trace_visualize_results].
        by intros []. }
  apply Hall in Hmain as [_ (t' & Ht' & HP)]; [|done].
  rewrite (trace_between_inj _ _ _ _ Ht Ht') in Hin.
  rewrite Forall_forall in HP. apply HP in Hin. by simpl in Hin.
Qed.

(** *** The temporary frame cache *)

(** X11: a run that fails before its last artifact is written stops
    there, whatever the strategy: nothing is removed, in particular the
    frame cache of the temporary strategy is left as it is, and
    [shutil.rmtree] is not called. *)
Theorem failure_before_written_keeps_cache args w e w1 :
  processX args w = (Raise e, w1) ->
  mainX args w = (Raise e, w1)
  /\ fs_grows w w1
  /\ trace_ext (fun ev => ~ rmtree_event ev) w w1.
Proof.
  intros H. split; [|split].
  - by rewrite main_eq, bind_eq, H.
  - by eapply fs_grows_process.
  - eapply trace_ext_weaken; [|by eapply trace_process].
    intros [] Hp; simpl; unfold process_event in Hp; simpl in Hp; tauto.
Qed.

Lemma startswith_app pre s :
  startswith pre s = true -> exists rest, s = pre +:+ rest.
Proof.
  revert s. induction pre as [|a pre IH]; intros s H; [by exists s|].
  destruct s as [|b s]; [done|]. cbn [startswith] in H.
  apply andb_true_iff in H as [Hab H]. apply Ascii.eqb_eq in Hab as ->.
  destruct (IH _ H) as [rest ->]. by exists rest.
Qed.

Lemma within_sibling a b b' :
  normal_dir a -> component b -> component b' -> b' <> b ->
  within (path_join a b) (path_join a b') = false.
Proof.
  intros Ha Hb Hb' Hne. unfold within. apply orb_false_iff. split.
  - apply String.eqb_neq. intros H. by apply path_join_inj in H.
  - destruct (startswith _ _) eqn:E; [|done]. exfalso.
    apply startswith_app in E as [rest E].
    rewrite !path_join_component in E by done.
    destruct Hb' as [_ Hs'].
    assert (has_char "/" b' = true) as Hc; [|congruence].
    destruct (String.eqb a "").
    + rewrite E, !has_char_app. cbn. by rewrite orb_true_r.
    + rewrite !str_app_assoc in E. apply (inj (String.app a)) in E.
      rewrite str_app_cons in E. injection E as E.
      rewrite E, !has_char_app. cbn. by rewrite orb_true_r.
Qed.

Lemma shutil_rmtree_Ok d w w' :
  shutil_rmtree d w = (Ok tt, w') ->
  trace_between w w' [EvRmtree d]
  /\ forall p, within d p = true -> w_fs w' !! p = None.
Proof.
  unfold shutil_rmtree, bind, get_fs, emit, put_fs, raise.
  destruct (w_fs w !! d) as [[|c]|]; [|done..].
  cbn [w_fs w_log w_clock w_trace]. intros [= <-]. split; [done|].
  intros p Hp. cbn [w_fs]. apply map_lookup_filter_None. right.
  intros x _. cbn. by rewrite Hp.
Qed.

Lemma fs_frame_write_file (S : string -> Prop) p c :
  S p -> always (fs_frame S) (write_file p c).
Proof.
  intros Hp w r w'. rewrite write_file_eq.
  destruct (w_fs w !! p) as [[|c']|] eqn:E;
    [intros [= _ <-]; reflexivity|..];
    (destruct (isdir _ _); intros [= _ <-]; [|reflexivity]);
    intros q Hq; cbn [with_fs w_fs]; rewrite lookup_insert_ne; congruence.
Qed.

Lemma fs_frame_emit (S : string -> Prop) e : always (fs_frame S) (emit e).
Proof. intros w r w'. unfold emit. by intros [= _ <-]. Qed.

Lemma fs_frame_render_video (S : string -> Prop) e p :
  S p -> always (fs_frame S) (render_video e p).
Proof.
  intros Hp. unfold render_video. apply always_bind; [apply _| |intros _].
  - by apply fs_frame_write_file.
  - apply fs_frame_emit.
Qed.

Lemma fs_frame_get_kinect_color (S : string -> Prop) smc k :
  always (fs_frame S) (get_kinect_color smc k).
Proof.
  unfold get_kinect_color. destruct (kinect_color smc !! k).
  - apply always_bind; [apply _|apply fs_frame_emit|intros _].
    apply always_ret. apply _.
  - apply always_raise. apply _.
Qed.

Lemma component_name_suffix args suffix :
  component suffix -> component (smc_name_of args +:+ suffix).
Proof. intros H. apply component_app_l; [apply has_char_smc_name|done]. Qed.

Lemma outside_cache_video args :
  normal_dir (output_dir args) ->
  within (frame_temp_dir_of args) (keypoints3d_video_of args) = false.
Proof.
  intros Hn. apply within_sibling;
    [done|apply component_temp_frames|by apply component_name_suffix|].
  intros H. by apply (inj (String.app (smc_name_of args))) in H.
Qed.

Lemma outside_cache_projected args v :
  normal_dir (output_dir args) ->
  within (frame_temp_dir_of args) (projected_path_of args v) = false.
Proof.
  intros Hn. apply within_sibling;
    [done|apply component_temp_frames|apply component_projected_name|].
  intros H. by apply (inj (String.app (smc_name_of args))) in H.
Qed.

Lemma outside_cache_overlay args sd :
  normal_dir (output_dir args) ->
  within (frame_temp_dir_of args) (overlay_path_of args (smpl_type_of sd))
  = false.
Proof.
  intros Hn. apply within_sibling; [done|apply component_temp_frames| |].
  - apply component_name_suffix. by destruct sd as [[]|].
  - intros H. apply (inj (String.app (smc_name_of args))) in H.
    by destruct sd as [[]|].
Qed.

Lemma fs_frame_visualize_results args smc est cams kd sd :
  normal_dir (output_dir args) ->
  always (fs_frame (fun p => within (frame_temp_dir_of args) p = false))
    (visualize_results rgb2bgr args smc est cams kd sd (smpl_type_of sd)).
Proof.
  intros Hn. unfold visualize_results.
  destruct (visualize args); [|apply always_ret; apply _].
  apply always_bind; [apply _| |intros _].
  - unfold visualize_keypoints3d. destruct kd as [kps3d|];
      [|apply always_ret; apply _].
    apply always_bind; [apply _| |intros _].
    { apply fs_frame_render_video. by apply outside_cache_video. }
    apply always_bind; [apply _|apply fs_frame_emit|intros _].
    apply always_for_each; [apply _|]. intros [] v _.
    destruct (_ !! v); [|apply always_raise; apply _].
    apply always_bind; [apply _|apply fs_frame_get_kinect_color|intros _].
    apply fs_frame_render_video. by apply outside_cache_projected.
  - unfold visualize_smpl. destruct sd as [s|]; [|apply always_ret; apply _].
    destruct (cams !! 1) as [c|]; [|apply always_raise; apply _].
    apply always_bind; [apply _| |intros c'].
    { destruct (world2cam c); [|apply always_ret; apply _].
      destruct (inverse_extrinsic c);
        [apply always_ret|apply always_raise]; apply _. }
    apply always_bind; [apply _|apply fs_frame_get_kinect_color|intros _].
    apply fs_frame_render_video. by apply (outside_cache_overlay args (Some s)).
Qed.

(** X12: after a successful run under the temporary strategy the frame
    cache is gone, visualisation included: [shutil.rmtree] was called on
    it once the artifacts were written, and no entry at or below
    [<smc_name>_temp_frames] exists. *)
Theorem temp_cache_removed_on_success args w w' t :
  normal_dir (output_dir args) ->
  frame_file args = FrameTemp ->
  mainX args w = (Ok tt, w') ->
  trace_between w w' t ->
  EvRmtree (frame_temp_dir_of args) ∈ t
  /\ forall p, within (frame_temp_dir_of args) p = true -> w_fs w' !! p = None.
Proof.
  intros Hn Htemp Hmain Ht. rewrite main_eq in Hmain.
  apply bind_Ok in Hmain as ([[[[[smc est] cams] kd] sd] st] & w1 & Hp & Hf).
  pose proof (trace_process _ _ _ _ Hp) as (t1 & Ht1 & _).
  apply process_Ok in Hp as (? & kps & imgs & ? & kps' & w0 & _ & _ & _ & Hw).
  apply write_results_Ok in Hw as (_ & _ & ->).
  unfold finish in Hf. apply bind_Ok in Hf as ([] & w2 & Hc & Hv).
  unfold cleanup in Hc. rewrite Htemp in Hc.
  destruct (decide (FrameTemp = FrameTemp)); [|done].
  apply shutil_rmtree_Ok in Hc as [Ht2 Hgone].
  pose proof (trace_visualize_results _ _ _ _ _ _ _ _ _ _ Hv) as (t3 & Ht3 & _).
  pose proof (fs_frame_visualize_results _ smc est cams kd sd Hn _ _ _ Hv)
    as Hframe.
  split.
  - pose proof (trace_between_app _ _ _ _ _ Ht1
                  (trace_between_app _ _ _ _ _ Ht2 Ht3)) as Hall.
    rewrite (trace_between_inj _ _ _ _ Ht Hall).
    rewrite !elem_of_app. right. left. left.
  - intros p Hp. rewrite Hframe by (by rewrite Hp). by apply Hgone.
Qed.

Lemma path_join_prefix a :
  exists pre, forall b, startswith_char "/" b = false ->
    path_join a b = pre +:+ b.
Proof.
  exists (if String.eqb a "" || endswith_char "/" a then a else a +:+ "/").
  intros b Hb. unfold path_join. rewrite Hb.
  destruct (_ || _); [done|]. by rewrite str_app_assoc.
Qed.

Lemma within_app_sibling pre b b' :
  has_char "/" b' = false -> b' <> b ->
  within (pre +:+ b) (pre +:+ b') = false.
Proof.
  intros Hs Hne. unfold within. apply orb_false_iff. split.
  - apply String.eqb_neq. intros H. by apply (inj (String.app pre)) in H.
  - destruct (startswith _ _) eqn:E; [|done]. exfalso.
    apply startswith_app in E as [rest E].
    rewrite !str_app_assoc in E. apply (inj (String.app pre)) in E.
    assert (has_char "/" b' = true) as Hc; [|congruence].
    rewrite E, !has_char_app. cbn. by rewrite orb_true_r.
Qed.

Lemma startswith_name_suffix args suffix :
  has_char "/" suffix = false ->
  startswith_char "/" (smc_name_of args +:+ suffix) = false.
Proof.
  intros Hs. apply has_char_startswith.
  by rewrite has_char_app, has_char_smc_name, Hs.
Qed.

(** Whatever the output directory is called, a name [<smc_name><suffix>]
    joined to it lies outside the frame cache. *)
Lemma outside_cache args suffix :
  has_char "/" suffix = false -> suffix <> "_temp_frames" ->
  within (frame_temp_dir_of args)
    (path_join (output_dir args) (smc_name_of args +:+ suffix)) = false.
Proof.
  intros Hs Hne. unfold frame_temp_dir_of.
  destruct (path_join_prefix (output_dir args)) as [pre Hpre].
  rewrite !Hpre by by apply startswith_name_suffix.
  apply within_app_sibling.
  - by rewrite has_char_app, has_char_smc_name, Hs.
  - intros H. by apply (inj (String.app (smc_name_of args))) in H.
Qed.

Lemma fs_frame_visualize_results_cache args smc est cams kd sd :
  always (fs_frame (fun p => within (frame_temp_dir_of args) p = false))
    (visualize_results rgb2bgr args smc est cams kd sd (smpl_type_of sd)).
Proof.
  unfold visualize_results.
  destruct (visualize args); [|apply always_ret; apply _].
  apply always_bind; [apply _| |intros _].
  - unfold visualize_keypoints3d. destruct kd as [kps3d|];
      [|apply always_ret; apply _].
    apply always_bind; [apply _| |intros _].
    { apply fs_frame_render_video. by apply outside_cache. }
    apply always_bind; [apply _|apply fs_frame_emit|intros _].
    apply always_for_each; [apply _|]. intros [] v _.
    destruct (_ !! v); [|apply always_raise; apply _].
    apply always_bind; [apply _|apply fs_frame_get_kinect_color|intros _].
    apply fs_frame_render_video.
    apply (outside_cache args ("_projected" +:+ "_" +:+ fmt_d 2 v +:+ ".mp4")).
    + rewrite !has_char_app, has_char_fmt_d by (cbv; lia). done.
    + done.
  - unfold visualize_smpl. destruct sd as [s|]; [|apply always_ret; apply _].
    destruct (cams !! 1) as [c|]; [|apply always_raise; apply _].
    apply always_bind; [apply _| |intros c'].
    { destruct (world2cam c); [|apply always_ret; apply _].
      destruct (inverse_extrinsic c);
        [apply always_ret|apply always_raise]; apply _. }
    apply always_bind; [apply _|apply fs_frame_get_kinect_color|intros _].
    apply fs_frame_render_video.
    apply (outside_cache args
             ("_" +:+ smpl_type_of (Some s) +:+ "_overlay.mp4"));
      by destruct s.
Qed.

Lemma trace_cleanup_dir args :
  always (trace_ext (fun e => e = EvRmtree (frame_temp_dir_of args)))
    (cleanup args).
Proof. unfold cleanup. always_go. Qed.


(** *** Artifact names *)

Lemma filter_nil_Forall {A} (P Q : A -> Prop) `{!forall x, Decision (P x)} l :
  Forall Q l -> (forall x, Q x -> ~ P x) -> filter P l = [].
Proof.
  intros HQ HPQ. induction HQ as [|x l Hx _ IH]; [done|].
  rewrite filter_cons_False by auto. done.
Qed.

Lemma filter_all_Forall {A} (P : A -> Prop) `{!forall x, Decision (P x)} l :
  Forall P l -> filter P l = l.
Proof.
  intros HP. induction HP as [|x l Hx _ IH]; [done|].
  rewrite filter_cons_True by done. by rewrite IH.
Qed.

Lemma dump_keypoints2d_Ok args kps w w' :
  dump_keypoints2d args kps w = (Ok tt, w') ->
  trace_between w w' (keypoints2d_dumps args kps).
Proof.
  unfold dump_keypoints2d, keypoints2d_dumps. apply for_each_trace.
  clear. intros [] [i [k|]] w [] w'.
  - intros (x & Hx & H)%dump_Ok. by simplify_eq.
  - unfold logger_warning. intros [= <-]. unfold trace_between. simpl.
    by rewrite app_nil_r.
Qed.

Lemma write_results_trace args kps kd sd st w w' :
  write_results args kps kd sd w = (Ok st, w') ->
  exists kps3d s, kd = Some kps3d /\ sd = Some s
    /\ trace_between w w' (artifact_dumps args kps kps3d s).
Proof.
  unfold write_results.
  intros ([] & w1 & H1 & H)%bind_Ok.
  apply bind_Ok in H as ([] & w2 & H2 & H).
  apply bind_Ok in H as ([] & w3 & H3 & H).
  unfold ret in H. simplify_eq.
  apply dump_keypoints2d_Ok in H1.
  apply dump_Ok in H2 as (x & Hx & H2). apply dump_Ok in H3 as (y & Hy & H3).
  destruct kd as [kps3d|], sd as [s|]; simplify_eq/=.
  exists kps3d, s. split; [done|]. split; [done|].
  unfold artifact_dumps.
  apply (trace_between_app _ _ _ _ _ H1).
  apply (trace_between_app _ _ _ _ _ H2 H3).
Qed.

Lemma Forall_dump_artifact_dumps args kps kps3d s :
  Forall dump_event (artifact_dumps args kps kps3d s).
Proof.
  unfold artifact_dumps, keypoints2d_dumps. apply Forall_app. split.
  - apply Forall_join, Forall_fmap, Forall_forall.
    intros [i [k|]] _; simpl; repeat constructor.
  - repeat constructor.
Qed.

Lemma main_reconstruct args w smc est cams kps kd sd w1 :
  reconstruct rgb2bgr build_estimator get_all_color_kinect_parameter_from_smc
    args w = (Ok (smc, est, cams, kps, kd, sd), w1) ->
  mainX args w
  = bind (write_results args kps kd sd)
      (fun st => finishX args (smc, est, cams, kd, sd, st)) w1
  /\ trace_ext (fun e => load_event e \/ acquire_event e \/ estimate_event e)
       w w1.
Proof.
  unfold reconstruct.
  intros ([[smc' est'] cams'] & w2 & H1 & H)%bind_Ok.
  apply bind_Ok in H as ([kps0 imgs] & w3 & H2 & H).
  apply bind_Ok in H as ([[kps' kd'] sd'] & w4 & H3 & H).
  unfold ret in H. simplify_eq. split.
  - rewrite (main_continue _ _ _ _ _ _ H1). unfold continue.
    rewrite bind_eq, H2, bind_eq, H3. reflexivity.
  - pose proof (trace_configure _ _ _ _ H1) as T1.
    pose proof (trace_acquire _ _ _ _ _ _ H2) as T2.
    pose proof (trace_estimate _ _ _ _ _ _ _ _ H3) as T3.
    etrans; [|etrans].
    + eapply trace_ext_weaken; [|exact T1]. tauto.
    + eapply trace_ext_weaken; [|exact T2]. tauto.
    + eapply trace_ext_weaken; [|exact T3]. tauto.
Qed.

(** C3, as the script has it: every artifact name ends in [.npz].  The
    dumps of a successful run are, in this order, one
    [<smc_name>_keypoints2d_view<NN>.npz] per entry of the estimator's
    2D-keypoint list that is not [None], holding that entry (NN the
    entry's position in the list, padded to two digits), then
    [<smc_name>_keypoints3d.npz] holding the estimator's 3D keypoints, then
    [<smc_name>_smplx_data.npz] for an SMPL-X value and
    [<smc_name>_smpl_data.npz] otherwise, all joined to the output
    directory; nothing else is dumped. *)
Theorem artifact_names args w smc est cams kps kd sd w1 w' t :
  reconstruct rgb2bgr build_estimator get_all_color_kinect_parameter_from_smc
    args w = (Ok (smc, est, cams, kps, kd, sd), w1) ->
  mainX args w = (Ok tt, w') ->
  trace_between w w' t ->
  exists kps3d s,
    kd = Some kps3d /\ sd = Some s
    /\ filter dump_event t
       = mjoin ((fun '(index, keypoints2d) =>
                   match keypoints2d with
                   | Some k =>
                       [EvDump
                          (path_join (output_dir args)
                             (smc_name_of args +:+ "_keypoints2d_view"
                              +:+ fmt_d 2 index +:+ ".npz"))
                          (Kp2dNpz k)]
                   | None => []
                   end) <$> enumerate kps)
         ++ [EvDump
               (path_join (output_dir args)
                  (smc_name_of args +:+ "_keypoints3d.npz"))
               (Kp3dNpz kps3d);
             EvDump
               (path_join (output_dir args)
                  (smc_name_of args +:+
                   match s with
                   | SMPLXData _ => "_smplx_data.npz"
                   | SMPLData _ => "_smpl_data.npz"
                   end))
               (SmplNpz s)].
Proof.
  intros Hrec Hmain Ht.
  apply main_reconstruct in Hrec as [Heq (t1 & Ht1 & HP1)].
  rewrite Heq in Hmain. clear Heq.
  apply bind_Ok in Hmain as (st & w2 & Hw & Hf).
  apply write_results_trace in Hw as (kps3d & s & -> & -> & Ht2).
  unfold finish in Hf.
  assert (always (trace_ext (fun e => rmtree_event e \/ visualize_event e))
            (bind (cleanup args) (fun _ =>
               visualize_results rgb2bgr args smc est cams (Some kps3d)
                 (Some s) st))) as Hfin.
  { apply always_bind; [apply _| |intros _].
    - eapply always_trace_weaken; [|apply trace_cleanup]. tauto.
    - eapply always_trace_weaken; [|apply trace_visualize_results]. tauto. }
  apply Hfin in Hf as (t3 & Ht3 & HP3).
  pose proof (trace_between_app _ _ _ _ _ Ht1
                (trace_between_app _ _ _ _ _ Ht2 Ht3)) as Hall.
  rewrite (trace_between_inj _ _ _ _ Ht Hall).
  exists kps3d, s. split; [done|]. split; [done|].
  rewrite !filter_app.
  rewrite (filter_nil_Forall _ _ _ HP1) by (intros []; simpl; tauto).
  rewrite (filter_nil_Forall _ _ _ HP3) by (intros []; simpl; tauto).
  rewrite filter_all_Forall by apply Forall_dump_artifact_dumps.
  rewrite app_nil_r. cbn [app]. unfold artifact_dumps, keypoints2d_dumps.
  destruct s; reflexivity.
Qed.

End Traces.

Lemma configuration_error_aborts_witness :
  exists e w1,
    sample_main missing_input_args sample_world = (Raise e, w1)
    /\ trace_ext load_event sample_world w1.
Proof.
  eexists _, _.
  destruct (configuration_error_aborts (ViewKeypoints := nat) (fun a => a)
              (fun _ => Ok sample_estimator) (fun c => Ok (calibration c))
              missing_input_args sample_world _ _
              ltac:(vm_compute; reflexivity)) as (H1 & H2 & _).
  split; [exact H1|exact H2].
Defined.



Lemma missing_output_parent_changes_nothing_witness :
  sample_main missing_parent_args sample_world
  = (Raise FileNotFoundError, sample_world).
Proof.
  apply (missing_output_parent_changes_nothing (ViewKeypoints := nat)).
  - reflexivity.
  - vm_compute; reflexivity.
  - vm_compute; reflexivity.
Defined.

Lemma log_file_precedes_input_check_witness :
  exists w',
    sample_main missing_input_args sample_world = (Raise FileNotFoundError, w')
    /\ isfile (w_fs w')
         (log_path_of missing_input_args (strftime (w_clock sample_world)))
       = true
    /\ w_trace w' = w_trace sample_world.
Proof.
  apply (log_file_precedes_input_check (ViewKeypoints := nat)).
  - reflexivity.
  - reflexivity.
  - right. split; vm_compute; reflexivity.
  - vm_compute. discriminate.
  - vm_compute; reflexivity.
  - vm_compute. discriminate.
  - vm_compute. discriminate.
Defined.

Lemma nothing_removed_unless_temp_witness :
  exists r w',
    sample_main (sample_args FrameKeep true) sample_world = (r, w')
    /\ fs_grows sample_world w'
    /\ trace_ext (fun e => ~ rmtree_event e) sample_world w'.
Proof.
  eexists _, _. split; [vm_compute; reflexivity|].
  eapply (nothing_removed_unless_temp (ViewKeypoints := nat) (fun a => a)
            (fun _ => Ok sample_estimator) (fun c => Ok (calibration c))
            (sample_args FrameKeep true)).
  - vm_compute. discriminate.
  - vm_compute; reflexivity.
Defined.

Lemma overlay_camera_is_cam2world_witness :
  exists r w' t,
    sample_main (sample_args FrameNone true) sample_world_w2c = (r, w')
    /\ trace_between sample_world_w2c w' t
    /\ forall cam p,
         EvVisualizeSmplCalibration cam p ∈ t -> world2cam cam = false.
Proof.
  eexists _, _, _. split; [vm_compute; reflexivity|].
  split; [vm_compute; reflexivity|].
  eapply (overlay_camera_is_cam2world (ViewKeypoints := nat) (fun a => a)
            (fun _ => Ok sample_estimator) (fun c => Ok (calibration c))
            (sample_args FrameNone true) sample_world_w2c).
  - vm_compute; reflexivity.
  - vm_compute; reflexivity.
Defined.

Lemma view_paths_distinct_witness :
  view_temp_dir_of (sample_args FrameKeep true) 7
  <> view_temp_dir_of (sample_args FrameKeep true) 107
  /\ keypoints2d_path_of (sample_args FrameKeep true) 7
     <> keypoints2d_path_of (sample_args FrameKeep true) 107
  /\ projected_path_of (sample_args FrameKeep true) 7
     <> projected_path_of (sample_args FrameKeep true) 107.
Proof.
  apply (view_paths_distinct (sample_args FrameKeep true) 7 107).
  - reflexivity.
  - lia.
Defined.

Lemma artifacts_lie_in_output_dir_witness :
  dirname (keypoints2d_path_of (sample_args FrameKeep true) 3) = "out"
  /\ dirname (view_temp_dir_of (sample_args FrameKeep true) 3)
     = frame_temp_dir_of (sample_args FrameKeep true).
Proof.
  destruct (artifacts_lie_in_output_dir (sample_args FrameKeep true) 3
              eq_refl) as (H1 & _ & _ & _ & _ & _ & H7).
  split; [exact H1|exact H7].
Defined.

Lemma run_gets_sorted_lists_witness :
  exists r w' t,
    sample_main (sample_args FrameTemp false) sample_world = (r, w')
    /\ trace_between sample_world w' t
    /\ forall cams imgs, EvRun cams imgs ∈ t -> Forall frame_list_sorted imgs.
Proof.
  eexists _, _, _. split; [vm_compute; reflexivity|].
  split; [vm_compute; reflexivity|].
  eapply (run_gets_sorted_lists (ViewKeypoints := nat) (fun a => a)
            (fun _ => Ok sample_estimator) (fun c => Ok (calibration c))
            (sample_args FrameTemp false) sample_world).
  - reflexivity.
  - reflexivity.
  - vm_compute; reflexivity.
  - vm_compute; reflexivity.
Defined.

Lemma keep_skips_populated_view_witness :
  exists r w' t,
    sample_main (sample_args FrameKeep false) sample_world_cached = (r, w')
    /\ trace_between sample_world_cached w' t
    /\ forall d, EvArrayToImages 1 d ∉ t.
Proof.
  eexists _, _, _. split; [vm_compute; reflexivity|].
  split; [vm_compute; reflexivity|].
  eapply (keep_skips_populated_view (ViewKeypoints := nat) (fun a => a)
            (fun _ => Ok sample_estimator) (fun c => Ok (calibration c))
            (sample_args FrameKeep false) sample_world_cached).
  - reflexivity.
  - split; vm_compute; reflexivity.
  - vm_compute; reflexivity.
  - vm_compute; reflexivity.
Defined.

Lemma failure_before_written_keeps_cache_witness :
  exists e w1,
    main (ViewKeypoints := nat) (fun a => a) (fun _ => Ok failing_estimator)
      (fun c => Ok (calibration c)) (sample_args FrameTemp false) sample_world
    = (Raise e, w1)
    /\ fs_grows sample_world w1
    /\ isfile (w_fs w1) "out/session07_temp_frames/view_00/000001.png" = true.
Proof.
  eexists _, _.
  destruct (failure_before_written_keeps_cache (ViewKeypoints := nat)
              (fun a => a) (fun _ => Ok failing_estimator)
              (fun c => Ok (calibration c)) (sample_args FrameTemp false)
              sample_world _ _ ltac:(vm_compute; reflexivity))
    as (H1 & H2 & _).
  split; [exact H1|]. split; [exact H2|]. vm_compute; reflexivity.
Defined.

Lemma temp_cache_removed_on_success_witness :
  exists w' t,
    sample_main (sample_args FrameTemp true) sample_world = (Ok tt, w')
    /\ trace_between sample_world w' t
    /\ EvRmtree (frame_temp_dir_of (sample_args FrameTemp true)) ∈ t
    /\ forall p, within (frame_temp_dir_of (sample_args FrameTemp true)) p = true ->
                 w_fs w' !! p = None.
Proof.
  eexists _, _. split; [vm_compute; reflexivity|].
  split; [vm_compute; reflexivity|].
  eapply (temp_cache_removed_on_success (ViewKeypoints := nat) (fun a => a)
            (fun _ => Ok sample_estimator) (fun c => Ok (calibration c))
            (sample_args FrameTemp true) sample_world).
  - reflexivity.
  - reflexivity.
  - vm_compute; reflexivity.
  - vm_compute; reflexivity.
Defined.


Lemma artifact_names_witness :
  exists w' t,
    sample_main (sample_args FrameNone false) sample_world = (Ok tt, w')
    /\ trace_between sample_world w' t
    /\ filter dump_event t
       = [EvDump "out/session07_keypoints2d_view00.npz" (Kp2dNpz [11; 12; 13]);
          EvDump "out/session07_keypoints2d_view01.npz" (Kp2dNpz [21; 22; 23]);
          EvDump "out/session07_keypoints2d_view03.npz" (Kp2dNpz [41; 42; 43]);
          EvDump "out/session07_keypoints3d.npz"
            (Kp3dNpz [Some [11; 12; 13]; Some [21; 22; 23]; None;
                      Some [41; 42; 43]]);
          EvDump "out/session07_smplx_data.npz" (SmplNpz (SMPLXData 4))].
Proof.
  eexists _, _. split; [vm_compute; reflexivity|].
  split; [vm_compute; reflexivity|].
  destruct (artifact_names (fun a => a) (fun _ => Ok sample_estimator)
              (fun c => Ok (calibration c)) (sample_args FrameNone false)
              sample_world _ _ _ _ _ _ _ _ _
              ltac:(vm_compute; reflexivity) ltac:(vm_compute; reflexivity)
              ltac:(vm_compute; reflexivity))
    as (kps3d & s & Hk & Hs & H).
  injection Hk as <-. injection Hs as <-. rewrite H. reflexivity.
Defined.

(** C3, as the spec words it, fails: for capture [session07] and an SMPL-X
    fit the run succeeds, yet nothing named [session07_keypoints3d] or
    [session07_smplx_data] is in the output directory; the files carry
    the [.npz] extension. *)
Lemma artifact_names_counterexample :
  exists w',
    sample_main (sample_args FrameNone false) sample_world = (Ok tt, w')
    /\ smc_name_of (sample_args FrameNone false) = "session07"
    /\ w_fs w' !! "out/session07_keypoints3d" = None
    /\ w_fs w' !! "out/session07_smplx_data" = None
    /\ isfile (w_fs w') "out/session07_keypoints3d.npz" = true
    /\ isfile (w_fs w') "out/session07_smplx_data.npz" = true.
Proof.
  eexists. split; [vm_compute; reflexivity|]. by vm_compute.
Qed.

Lemma projected_video_every_third_view_witness :
  exists w' t,
    sample_main (sample_args FrameNone true) sample_world = (Ok tt, w')
    /\ trace_between sample_world w' t
    /\ (forall n, EvProject n ∈ t -> n = 4)
    /\ (forall v p, EvVisualizeKp2d v p ∈ t ->
          v < 4 /\ v mod 3 = 0
          /\ p = projected_path_of (sample_args FrameNone true) v)
    /\ EvProject 4 ∈ t
    /\ EvVisualizeKp2d 0 "out/session07_projected_00.mp4" ∈ t
    /\ EvVisualizeKp2d 3 "out/session07_projected_03.mp4" ∈ t.
Proof.
  eexists _, _. split; [vm_compute; reflexivity|].
  split; [vm_compute; reflexivity|].
  pose proof (projected_video_every_third_view (fun a => a)
                (fun _ => Ok sample_estimator) (fun c => Ok (calibration c))
                (sample_args FrameNone true) sample_world _ _ _ _ _ _ _
                eq_refl ltac:(vm_compute; reflexivity)
                ltac:(vm_compute; reflexivity)
                ltac:(vm_compute; reflexivity)) as H.
  cbv zeta in H. destruct H as (H1 & H2 & H3).
  destruct (H3 eq_refl) as [Hp Hv].
  split; [exact H1|]. split; [exact H2|]. split; [exact Hp|].
  split; [apply (Hv 0); [cbv; lia|reflexivity]
         |apply (Hv 3); [cbv; lia|reflexivity]].
Defined.
